(** * Concurrency toolkit of AIStudy-go: futures, actors, observables, pipelines

    A shallow embedding of the Go sources
      - [01_concurrency/09_future.go]  (Future)
      - [01_concurrency/07_actor.go]   (Actor)
      - [03_reflection/README.md]      (Observable, generate, square, merge)
    Every method body that runs under the object's mutex is one atomic
    transition; goroutines are program counters in a labelled transition
    system whose labels are the scheduler's choices. *)

From stdpp Require Import gmap strings list.
From Stdlib Require Import ZArith Lia.

Local Open Scope Z_scope.
Local Open Scope nat_scope.

(** ** Go runtime notions shared by all components *)

(** How a call ends: it returns, or it panics with the runtime's message. *)
Inductive outcome (A : Type) : Type :=
  | Returned (a : A)
  | Panicked (msg : string).
Arguments Returned {A} a.
Arguments Panicked {A} msg.

Definition close_of_closed : string := "close of closed channel".
Definition send_on_closed : string := "send on closed channel".

(** ** Schedules of goroutines *)
Module Sched.

Section Runs.
Context {S L : Type} (step : S -> L -> option S).

(** The state after the scheduler's choices [ls], if each was possible. *)
Fixpoint run (s : S) (ls : list L) : option S :=
  match ls with
  | [] => Some s
  | l :: ls' =>
      match step s l with
      | Some s' => run s' ls'
      | None => None
      end
  end.

Lemma run_snoc (ls : list L) (l : L) : forall s : S,
  run s (ls ++ [l]) = match run s ls with Some s' => step s' l | None => None end.
Proof.
  induction ls as [|l0 ls IH]; intros s; cbn.
  - destruct (step s l); reflexivity.
  - destruct (step s l0); [apply IH | reflexivity].
Qed.

Lemma run_app (ls1 ls2 : list L) : forall s : S,
  run s (ls1 ++ ls2) = match run s ls1 with Some s' => run s' ls2 | None => None end.
Proof.
  induction ls1 as [|l0 ls1 IH]; intros s; cbn.
  - reflexivity.
  - destruct (step s l0); [apply IH | reflexivity].
Qed.

Section Liveness.
(** A measure that every step decreases, an invariant, and progress for
    the states that are not finished. *)
Variable measure : S -> nat.
Variable finished : S -> bool.
Variable inv : S -> Prop.
Hypothesis step_decreases : forall s l s', step s l = Some s' -> measure s' < measure s.
Hypothesis inv_step : forall s l s', inv s -> step s l = Some s' -> inv s'.
Hypothesis progress : forall s, inv s -> finished s = false -> exists l s', step s l = Some s'.

Lemma run_bounded (ls : list L) : forall s s' : S,
  run s ls = Some s' -> measure s' + length ls <= measure s.
Proof.
  induction ls as [|l ls IH]; intros s s' Hrun; cbn in *.
  - injection Hrun as ->. lia.
  - destruct (step s l) as [s1|] eqn:E; [|discriminate].
    pose proof (step_decreases _ _ _ E). pose proof (IH _ _ Hrun). lia.
Qed.

Lemma run_inv (ls : list L) : forall s s' : S,
  inv s -> run s ls = Some s' -> inv s'.
Proof.
  induction ls as [|l ls IH]; intros s s' Hinv Hrun; cbn in *.
  - injection Hrun as <-. exact Hinv.
  - destruct (step s l) as [s1|] eqn:E; [|discriminate]. eauto.
Qed.

(** Every state can be run to a finished one. *)
Lemma can_finish (s : S) :
  inv s -> exists ls s', run s ls = Some s' /\ finished s' = true.
Proof.
  remember (measure s) as n eqn:Hn. revert s Hn.
  induction n as [n IH] using lt_wf_ind. intros s -> Hinv.
  destruct (finished s) eqn:Ef.
  - exists [], s. split; [reflexivity | exact Ef].
  - destruct (progress s Hinv Ef) as (l & s1 & Hstep).
    destruct (IH (measure s1) (step_decreases _ _ _ Hstep) s1 eq_refl
                (inv_step _ _ _ Hinv Hstep)) as (ls & s' & Hrun & Hfin).
    exists (l :: ls), s'. cbn. rewrite Hstep. split; assumption.
Qed.

End Liveness.
End Runs.

End Sched.

(** Replacing the element at an index, seen as a split of the list. *)
Lemma insert_middle {A : Type} (l : list A) (i : nat) (x y : A) :
  l !! i = Some x ->
  exists l1 l2, l = l1 ++ x :: l2 /\ <[i := y]> l = l1 ++ y :: l2.
Proof.
  intros Hi. exists (take i l), (drop (S i) l). split.
  - symmetry. apply take_drop_middle. exact Hi.
  - apply insert_take_drop. eapply lookup_lt_Some. exact Hi.
Qed.

(** ** Channels *)
Module Chan.

(** [make(chan V, cap)]: the queued values, the capacity, the closed flag. *)
Record chan (V : Type) : Type := mkChan {
  buf : list V;
  cap : nat;
  closed : bool
}.
Arguments mkChan {V} buf cap closed.
Arguments buf {V} c.
Arguments cap {V} c.
Arguments closed {V} c.

Definition make {V : Type} (n : nat) : chan V := mkChan [] n false.

(** [ch <- v] executed by a goroutine with no receiver parked on [ch]. *)
Inductive send_result (V : Type) : Type :=
  | SendOk (c : chan V)
  | SendBlocks
  | SendPanics.
Arguments SendOk {V} c.
Arguments SendBlocks {V}.
Arguments SendPanics {V}.

Definition send {V : Type} (c : chan V) (v : V) : send_result V :=
  if closed c then SendPanics
  else if length (buf c) <? cap c
       then SendOk (mkChan (buf c ++ [v]) (cap c) (closed c))
       else SendBlocks.

(** [select { case ch <- v: ; default: }] *)
Inductive try_send_result (V : Type) : Type :=
  | TrySent (c : chan V)
  | TryDefault
  | TryPanics.
Arguments TrySent {V} c.
Arguments TryDefault {V}.
Arguments TryPanics {V}.

Definition try_send {V : Type} (c : chan V) (v : V) : try_send_result V :=
  match send c v with
  | SendOk c' => TrySent c'
  | SendBlocks => TryDefault
  | SendPanics => TryPanics
  end.

(** [v, ok := <-ch] *)
Inductive recv_result (V : Type) : Type :=
  | RecvOk (v : V) (c : chan V)
  | RecvClosed
  | RecvBlocks.
Arguments RecvOk {V} v c.
Arguments RecvClosed {V}.
Arguments RecvBlocks {V}.

Definition recv {V : Type} (c : chan V) : recv_result V :=
  match buf c with
  | v :: rest => RecvOk v (mkChan rest (cap c) (closed c))
  | [] => if closed c then RecvClosed else RecvBlocks
  end.

(** [close(ch)] *)
Definition close {V : Type} (c : chan V) : chan V * outcome unit :=
  if closed c then (c, Panicked close_of_closed)
  else (mkChan (buf c) (cap c) true, Returned tt).

(** A receive case of a [select] is ready when [recv] would not block. *)
Definition recv_ready {V : Type} (c : chan V) : bool :=
  match recv c with
  | RecvBlocks => false
  | _ => true
  end.

End Chan.

(** ** Future (09_future.go) *)
Module Future.

(** [time.Duration] is an int64 count of nanoseconds. *)
Definition Duration : Type := Z.

(** The two ways the file builds an [error]. *)
Inductive error : Type :=
  | ErrorsNew (msg : string)
  | Errorf (format : string) (arg : Duration).

Section WithValue.
(** [V] stands for the dynamic values stored in an [interface{}];
    [None] is the nil interface, resp. the nil error. *)
Context {V : Type}.

Record Future : Type := mkFuture {
  result : option V;
  err : option error;
  done : Chan.chan unit
}.

Definition NewFuture : Future :=
  mkFuture None None (Chan.make 0).

(** SetResult (09_future.go:27-32) and SetError (35-40):
    [f.result = result; close(f.done)] under [f.mu.Lock()]; the deferred
    Unlock runs even when [close] panics. *)
Definition SetResult (f : Future) (r : option V) : Future * outcome unit :=
  let f1 := mkFuture r (err f) (done f) in
  let '(d, o) := Chan.close (done f1) in
  (mkFuture (result f1) (err f1) d, o).

Definition SetError (f : Future) (e : option error) : Future * outcome unit :=
  let f1 := mkFuture (result f) e (done f) in
  let '(d, o) := Chan.close (done f1) in
  (mkFuture (result f1) (err f1) d, o).

(** Get (09_future.go:43-48): [<-f.done], then the two slots under the
    read lock; [None] is a caller still parked on the receive. *)
Definition Get (f : Future) : option (Future * (option V * option error)) :=
  match Chan.recv (done f) with
  | Chan.RecvOk _ d => Some (mkFuture (result f) (err f) d, (result f, err f))
  | Chan.RecvClosed => Some (f, (result f, err f))
  | Chan.RecvBlocks => None
  end.

Definition timeout_error (timeout : Duration) : error :=
  Errorf "timeout after %v" timeout.

(** The [select] of GetWithTimeout (09_future.go:51-60): the list holds what each ready
    case would return ([expired] says whether [time.After] has fired);
    the runtime picks any ready case, and an empty list is a caller
    still parked. *)
Definition GetWithTimeout (f : Future) (timeout : Duration) (expired : bool)
  : list (Future * (option V * option error)) :=
  (match Chan.recv (done f) with
   | Chan.RecvOk _ d => [(mkFuture (result f) (err f) d, (result f, err f))]
   | Chan.RecvClosed => [(f, (result f, err f))]
   | Chan.RecvBlocks => []
   end)
  ++ (if expired then [(f, (None, Some (timeout_error timeout)))] else []).

Definition IsDone (f : Future) : bool := Chan.recv_ready (done f).

(** *** Goroutines racing on one Future *)

Inductive setter : Type :=
  | CallSetResult (r : option V)
  | CallSetError (e : option error).

Definition call_setter (f : Future) (c : setter) : Future * outcome unit :=
  match c with
  | CallSetResult r => SetResult f r
  | CallSetError e => SetError f e
  end.

(** The setters in the order in which they win [f.mu]; a panicking
    caller has released the mutex, so the next one proceeds. *)
Fixpoint race (f : Future) (cs : list setter) : Future * list (outcome unit) :=
  match cs with
  | [] => (f, [])
  | c :: cs' =>
      let '(f1, o) := call_setter f c in
      let '(f2, os) := race f1 cs' in
      (f2, o :: os)
  end.

(** What a Get that runs once all of [cs] have finished returns. *)
Definition get_after (f : Future) (cs : list setter)
  : option (option V * option error) :=
  snd <$> Get (fst (race f cs)).

(** The two slots after one more setter has stored its argument. *)
Definition write_slots (p : option V * option error) (c : setter)
  : option V * option error :=
  match c with
  | CallSetResult r => (r, snd p)
  | CallSetError e => (fst p, e)
  end.

Definition slots (f : Future) : option V * option error := (result f, err f).

(** *** Properties of the setters *)

Lemma slots_mk (p : option V * option error) (d : Chan.chan unit) :
  slots (mkFuture (fst p) (snd p) d) = p.
Proof. destruct p; reflexivity. Qed.

Lemma first_set_returns (f : Future) (c : setter) :
  Chan.closed (done f) = false ->
  call_setter f c =
    (mkFuture (fst (write_slots (slots f) c)) (snd (write_slots (slots f) c))
       (Chan.mkChan (Chan.buf (done f)) (Chan.cap (done f)) true),
     Returned tt).
Proof.
  intros Hopen. destruct c; cbn; unfold SetResult, SetError, Chan.close; cbn;
    rewrite Hopen; reflexivity.
Qed.

Lemma late_set_panics (f : Future) (c : setter) :
  Chan.closed (done f) = true ->
  call_setter f c =
    (mkFuture (fst (write_slots (slots f) c)) (snd (write_slots (slots f) c)) (done f),
     Panicked close_of_closed).
Proof.
  intros Hset. destruct c; cbn; unfold SetResult, SetError, Chan.close; cbn;
    rewrite Hset; reflexivity.
Qed.

Lemma race_on_set_future (cs : list setter) : forall f : Future,
  Chan.closed (done f) = true ->
  race f cs =
    (mkFuture (fst (foldl write_slots (slots f) cs))
       (snd (foldl write_slots (slots f) cs)) (done f),
     map (fun _ => Panicked close_of_closed) cs).
Proof.
  induction cs as [|c cs IH]; intros f Hset.
  - destruct f; reflexivity.
  - cbn [race]. rewrite (late_set_panics f c Hset).
    rewrite IH by exact Hset. cbn.
    destruct (write_slots (slots f) c); reflexivity.
Qed.

(** From a fresh Future the setter that wins the mutex returns, and every
    other one panics after having stored its argument. *)
Lemma race_on_new_future (c : setter) (cs : list setter) :
  snd (race NewFuture (c :: cs)) =
    Returned tt :: map (fun _ => Panicked close_of_closed) cs
  /\ slots (fst (race NewFuture (c :: cs))) =
       foldl write_slots (None, None) (c :: cs).
Proof.
  cbn [race]. rewrite (first_set_returns NewFuture c) by reflexivity.
  rewrite race_on_set_future by reflexivity.
  cbn [fst snd foldl]. rewrite !slots_mk. split; reflexivity.
Qed.

(** C1 (as the code has it): on a Future whose completion signal is already
    closed, that is, after a first SetResult or SetError, every later
    setter call, alone or racing with others in any order [cs], stores
    its argument in its slot and then panics with "close of closed
    channel"; none is rejected with an error value, and a Get that runs
    afterwards returns the slots as the last writers left them. *)
Theorem late_setters_overwrite_then_panic (f : Future) (cs : list setter) :
  Chan.closed (done f) = true ->
  Chan.buf (done f) = [] ->
  snd (race f cs) = map (fun _ => Panicked close_of_closed) cs
  /\ slots (fst (race f cs)) = foldl write_slots (slots f) cs
  /\ done (fst (race f cs)) = done f
  /\ get_after f cs = Some (foldl write_slots (slots f) cs).
Proof.
  intros Hset Hbuf. unfold get_after.
  rewrite race_on_set_future by exact Hset. cbn [fst snd].
  rewrite slots_mk. repeat split.
  unfold Get, Chan.recv. cbn [done result err]. rewrite Hbuf, Hset. cbn.
  destruct (foldl write_slots (slots f) cs); reflexivity.
Qed.

(** C2: while no setter has run, a GetWithTimeout whose timer fires has
    only the timer case ready: it returns the nil value with the timeout
    error and the Future as it was; a Get stays parked; and after the
    assignment, whichever setter makes it, Get returns the assigned
    slots. *)
Theorem timeout_leaves_future_untouched (f : Future) (timeout : Duration) (c : setter) :
  IsDone f = false ->
  GetWithTimeout f timeout true = [(f, (None, Some (timeout_error timeout)))]
  /\ GetWithTimeout f timeout false = []
  /\ Get f = None
  /\ snd (call_setter f c) = Returned tt
  /\ IsDone (fst (call_setter f c)) = true
  /\ Get (fst (call_setter f c)) =
       Some (fst (call_setter f c), write_slots (slots f) c).
Proof.
  unfold IsDone, Chan.recv_ready, GetWithTimeout, Get, Chan.recv.
  destruct f as [r e [b n cl]]; cbn.
  destruct b as [|u b]; [|discriminate]. destruct cl; [discriminate|].
  intros _. repeat split; destruct c; reflexivity.
Qed.

End WithValue.
Arguments Future V : clear implicits.

(** C1 on a concrete run. *)
Lemma late_setters_overwrite_then_panic_witness :
  let f1 : Future Z := fst (SetResult NewFuture (Some 1%Z)) in
  snd (race f1 [CallSetResult (Some 2%Z); CallSetError (Some (ErrorsNew "boom"))])
    = [Panicked close_of_closed; Panicked close_of_closed]
  /\ get_after f1 [CallSetResult (Some 2%Z); CallSetError (Some (ErrorsNew "boom"))]
    = Some (Some 2%Z, Some (ErrorsNew "boom")).
Proof.
  intros f1.
  pose proof (late_setters_overwrite_then_panic f1
    [CallSetResult (Some 2%Z); CallSetError (Some (ErrorsNew "boom"))]
    eq_refl eq_refl) as (H1 & _ & _ & H4).
  split; [exact H1 | exact H4].
Defined.

(** C1 as stated fails: the second SetResult is not rejected; it returns no
    error value, replaces the result a reader has already seen, and panics. *)
Lemma second_set_not_rejected :
  let f1 : Future Z := fst (SetResult NewFuture (Some 1%Z)) in
  let f2 : Future Z := fst (SetResult f1 (Some 2%Z)) in
  snd (SetResult NewFuture (Some 1%Z)) = Returned tt
  /\ (snd <$> Get f1) = Some (Some 1%Z, None)
  /\ snd (SetResult f1 (Some 2%Z)) = Panicked close_of_closed
  /\ (snd <$> Get f2) = Some (Some 2%Z, None)
  /\ result f2 <> result f1.
Proof.
  cbn. repeat split; discriminate.
Qed.

(** C2 on a concrete run: a timeout of 100ms, then the producer's result. *)
Lemma timeout_leaves_future_untouched_witness :
  GetWithTimeout (V := string) NewFuture 100000000%Z true
    = [(NewFuture, (None, Some (timeout_error 100000000%Z)))]
  /\ Get (fst (SetResult (V := string) NewFuture (Some "late")))
    = Some (fst (SetResult NewFuture (Some "late")), (Some "late", None)).
Proof.
  pose proof (timeout_leaves_future_untouched (V := string) NewFuture
    100000000%Z (CallSetResult (Some "late")) eq_refl)
    as (H1 & _ & _ & _ & _ & H6).
  split; [exact H1 | exact H6].
Defined.

(** *** Reading a Future after any calls of the setters *)

Section Reading.
Context {V : Type}.

(** The Futures a program can hold: a fresh one after any setter calls. *)
Definition reached (cs : list (setter (V := V))) : Future V :=
  fst (race NewFuture cs).

Lemma reached_done (cs : list (setter (V := V))) :
  done (reached cs) = Chan.mkChan [] 0 (match cs with [] => false | _ => true end).
Proof.
  unfold reached. destruct cs as [|c cs]; [reflexivity|].
  cbn [race]. rewrite (first_set_returns NewFuture c) by reflexivity.
  rewrite race_on_set_future by reflexivity. reflexivity.
Qed.

Lemma reached_slots (cs : list (setter (V := V))) :
  slots (reached cs) = foldl write_slots (None, None) cs.
Proof.
  destruct cs as [|c cs]; [reflexivity|].
  apply (race_on_new_future c cs).
Qed.

(** X1: after any sequence of setter calls on a fresh Future, IsDone says
    whether a setter has been called; Get is parked exactly while none has
    been, and otherwise returns the slots as the setters left them,
    without changing the Future, so that every Get repeats the same
    answer; and a GetWithTimeout whose timer has not fired answers as Get
    does. *)
Theorem reads_follow_the_setters (cs : list (setter (V := V))) (timeout : Duration) :
  IsDone (reached cs) = match cs with [] => false | _ => true end
  /\ Get (reached cs) =
       match cs with
       | [] => None
       | _ => Some (reached cs, foldl write_slots (None, None) cs)
       end
  /\ GetWithTimeout (reached cs) timeout false =
       match Get (reached cs) with Some r => [r] | None => [] end.
Proof.
  pose proof (reached_done cs) as Hd. pose proof (reached_slots cs) as Hs.
  unfold IsDone, Chan.recv_ready, GetWithTimeout, Get, Chan.recv.
  rewrite Hd. cbn [Chan.buf Chan.closed]. unfold slots in Hs.
  destruct cs as [|c cs]; [repeat split|].
  rewrite <- Hs. repeat split.
Qed.

(** X2: on a Future that a setter has completed, a GetWithTimeout whose
    timer has fired as well has both cases of its [select] ready: it may
    return the slots, and it may return the timeout error although the
    value is there; nothing else. *)
Theorem timeout_can_hide_a_value (c : setter (V := V)) (cs : list setter)
    (timeout : Duration) :
  GetWithTimeout (reached (c :: cs)) timeout true =
    [(reached (c :: cs), foldl write_slots (None, None) (c :: cs));
     (reached (c :: cs), (None, Some (timeout_error timeout)))].
Proof.
  pose proof (reached_done (c :: cs)) as Hd.
  pose proof (reached_slots (c :: cs)) as Hs.
  unfold GetWithTimeout, Chan.recv. rewrite Hd. cbn [Chan.buf Chan.closed app].
  unfold slots in Hs. rewrite <- Hs. reflexivity.
Qed.

(** *** Chaining Futures by hand (composeFutureExample) *)

(** The goroutine between two Futures (09_future.go:257-267, 271-281,
    439-453): [v, err := src.Get()], then [dst.SetError(err)] when [err] is
    not nil and [dst.SetResult(fn v)] otherwise; [None] while it is parked
    in Get. *)
Definition chain_stage (fn : option V -> option V) (src dst : Future V)
  : option (Future V * outcome unit) :=
  match Get src with
  | None => None
  | Some (_, (_, Some e)) => Some (SetError dst (Some e))
  | Some (_, (v, None)) => Some (SetResult dst (fn v))
  end.

(** A chain of such goroutines, each with a fresh Future of its own to
    complete; the result is the last Future of the chain, once every
    stage has run. *)
Fixpoint chain (src : Future V) (fns : list (option V -> option V))
  : option (Future V) :=
  match fns with
  | [] => Some src
  | fn :: fns' =>
      match chain_stage fn src NewFuture with
      | Some (dst, Returned _) => chain dst fns'
      | _ => None
      end
  end.

Lemma chain_error (e : error) (fns : list (option V -> option V)) :
  forall (v : option V) (d : Chan.chan unit),
    Chan.recv d = Chan.RecvClosed ->
    exists f, chain (mkFuture v (Some e) d) fns = Some f
              /\ Chan.recv (done f) = Chan.RecvClosed
              /\ err f = Some e
              /\ (fns <> [] -> result f = None).
Proof.
  induction fns as [|fn fns IH]; intros v d Hd.
  - eexists. split; [reflexivity|]. repeat split; [exact Hd | congruence].
  - cbn [chain]. unfold chain_stage, Get. cbn [done result err]. rewrite Hd.
    cbn. destruct (IH None (Chan.mkChan [] 0 true) eq_refl) as (f & Hf & Hdf & He & Hr).
    exists f. split; [exact Hf|]. split; [exact Hdf|]. split; [exact He|].
    intros _. destruct fns as [|fn' fns]; [|apply Hr; discriminate].
    cbn in Hf. injection Hf as <-. reflexivity.
Qed.

Lemma chain_value (fns : list (option V -> option V)) :
  forall (v : option V) (d : Chan.chan unit),
    Chan.recv d = Chan.RecvClosed ->
    exists f, chain (mkFuture v None d) fns = Some f
              /\ Chan.recv (done f) = Chan.RecvClosed
              /\ err f = None
              /\ result f = foldl (fun x fn => fn x) v fns.
Proof.
  induction fns as [|fn fns IH]; intros v d Hd.
  - eexists. split; [reflexivity|]. repeat split. exact Hd.
  - cbn [chain]. unfold chain_stage, Get. cbn [done result err]. rewrite Hd.
    cbn. apply (IH (fn v) (Chan.mkChan [] 0 true) eq_refl).
Qed.

(** X3: a chain of goroutines fed by a Future that a setter has completed
    runs to its end; the last Future then holds, when the first one holds
    an error, that same error (and a nil result, if the chain has a
    stage), and otherwise no error and the first result passed through
    all the functions in order. Fed by a Future that no setter has
    completed, a chain with a stage does not start. *)
Theorem chain_propagates (c : setter (V := V)) (cs : list setter)
    (fns : list (option V -> option V)) :
  (exists f, chain (reached (c :: cs)) fns = Some f
     /\ IsDone f = true
     /\ match err (reached (c :: cs)) with
        | Some e => (snd <$> Get f) =
                    Some (if fns is [] then result (reached (c :: cs)) else None, Some e)
        | None => (snd <$> Get f) =
                  Some (foldl (fun x fn => fn x) (result (reached (c :: cs))) fns, None)
        end)
  /\ (fns <> [] -> chain (reached []) fns = None).
Proof.
  split.
  - pose proof (reached_done (c :: cs)) as Hd.
    destruct (reached (c :: cs)) as [v e d] eqn:Er. cbn [done err result] in *.
    assert (Hrecv : Chan.recv d = Chan.RecvClosed) by (rewrite Hd; reflexivity).
    destruct e as [e|].
    + destruct (chain_error e fns v d Hrecv) as (f & Hf & Hdf & He & Hr).
      exists f. split; [exact Hf|]. unfold IsDone, Chan.recv_ready, Get.
      rewrite Hdf. split; [reflexivity|]. cbn. rewrite He. do 2 f_equal.
      destruct fns as [|fn fns]; [|apply Hr; discriminate].
      cbn in Hf. injection Hf as <-. reflexivity.
    + destruct (chain_value fns v d Hrecv) as (f & Hf & Hdf & He & Hr).
      exists f. split; [exact Hf|]. unfold IsDone, Chan.recv_ready, Get.
      rewrite Hdf. split; [reflexivity|]. cbn. rewrite He, Hr. reflexivity.
  - intros Hne. destruct fns as [|fn fns]; [congruence | reflexivity].
Qed.

End Reading.

(** The two functions of composeFutureExample, on strings:
    [fmt.Sprintf("User info: ID=%v, Name=John, Age=30", userID)] and
    [fmt.Sprintf("Order info: %v order list", userInfo)]. *)
Definition user_info (v : option string) : option string :=
  Some (String.append "User info: ID="
          (String.append (default "<nil>" v) ", Name=John, Age=30")).

Definition orders_of (v : option string) : option string :=
  Some (String.append "Order info: "
          (String.append (default "<nil>" v) " order list")).

(** X3 on the three Futures of composeFutureExample. *)
Lemma chain_propagates_witness :
  chain (reached []) [user_info; orders_of] = None
  /\ exists f, chain (reached [CallSetResult (Some "12345")]) [user_info; orders_of] = Some f
               /\ (snd <$> Get f) =
                    Some (Some "Order info: User info: ID=12345, Name=John, Age=30 order list",
                          None).
Proof.
  destruct (chain_propagates (CallSetResult (Some "12345")) [] [user_info; orders_of])
    as [(f & Hf & _ & Hget) Hpark].
  split; [apply Hpark; discriminate|].
  exists f. split; [exact Hf | exact Hget].
Defined.

End Future.

(** ** Actor (07_actor.go) *)
Module Actor.

(** [type Message interface { Type() string }] *)
Class Message (M : Type) : Type := Type_ : M -> string.

(** The message structs of the first two examples. *)
Inductive BasicMessage : Type :=
  | StringMessage (Content : string)
  | NumberMessage (Value : Z)
  | StopMessage
  | PingMessage (Count : Z)
  | PongMessage (Count : Z).

#[export] Instance BasicMessage_Message : Message BasicMessage :=
  fun m =>
    match m with
    | StringMessage _ => "string"
    | NumberMessage _ => "number"
    | StopMessage => "stop"
    | PingMessage _ => "ping"
    | PongMessage _ => "pong"
    end.

Section WithMessage.
(** [W] is the part of the program state the handlers act on; a handler
    [func(Message)] is a function of the message on that state. *)
Context {M : Type} `{Message M} {W : Type}.

Abbreviation Handler := (M -> W -> W).

Record Actor : Type := mkActor {
  ID : string;
  mailbox : Chan.chan M;
  handlers : gmap string Handler;
  wg : nat;
  stop : Chan.chan unit
}.

Definition NewActor (id : string) : Actor :=
  mkActor id (Chan.make 100) ∅ 0 (Chan.make 0).

Definition RegisterHandler (a : Actor) (msgType : string) (handler : Handler) : Actor :=
  mkActor (ID a) (mailbox a) (<[msgType := handler]> (handlers a)) (wg a) (stop a).

(** Send (07_actor.go:166-168): [a.mailbox <- msg]; [None] is a caller
    parked on the send. *)
Definition Send (a : Actor) (msg : M) : option (Actor * outcome unit) :=
  match Chan.send (mailbox a) msg with
  | Chan.SendOk c => Some (mkActor (ID a) c (handlers a) (wg a) (stop a), Returned tt)
  | Chan.SendBlocks => None
  | Chan.SendPanics => Some (a, Panicked send_on_closed)
  end.

(** Stop (07_actor.go:192-195), first statement: [close(a.stop)]. *)
Definition Stop_close (a : Actor) : Actor * outcome unit :=
  let '(c, o) := Chan.close (stop a) in
  (mkActor (ID a) (mailbox a) (handlers a) (wg a) c, o).

(** The second statement of Stop, [a.wg.Wait()], returns when the counter
    is zero. *)
Definition Stop_wait (a : Actor) : bool := wg a =? 0.

(** Stop run with no other goroutine scheduled in between; [None] is a
    caller parked in [Wait]. *)
Definition Stop (a : Actor) : option (Actor * outcome unit) :=
  match Stop_close a with
  | (a', Panicked msg) => Some (a', Panicked msg)
  | (a', Returned _) => if Stop_wait a' then Some (a', Returned tt) else None
  end.

(** *** The dispatch goroutines *)

(** Where a goroutine spawned by Start stands: at the [select], between
    the receive and the end of the handler call, or returned. *)
Inductive loop_pc : Type :=
  | AtSelect
  | Handling (msg : M)
  | Exited.

(** What a dispatch goroutine does that the outside can see. *)
Inductive event : Type :=
  | HandlerCalled (msg : M)
  | UnknownType (msg : M)
  | Stopping.

Record system : Type := mkSystem {
  actor : Actor;
  loops : list loop_pc;
  world : W;
  log : list event
}.

(** The scheduler's choices. *)
Inductive label : Type :=
  | LSend (msg : M)
  | LStart
  | LRecv (i : nat)
  | LHandle (i : nat)
  | LExit (i : nat)
  | LStopClose
  | LStopReturn.

(** Start (07_actor.go:171-189): [a.wg.Add(1)] and one more goroutine at
    its [select]. *)
Definition Start (s : system) : system :=
  let a := actor s in
  mkSystem (mkActor (ID a) (mailbox a) (handlers a) (S (wg a)) (stop a))
    (loops s ++ [AtSelect]) (world s) (log s).

(** [case msg := <-a.mailbox] of goroutine [i]. *)
Definition loop_recv (s : system) (i : nat) : option system :=
  let a := actor s in
  match loops s !! i, Chan.recv (mailbox a) with
  | Some AtSelect, Chan.RecvOk msg c =>
      Some (mkSystem (mkActor (ID a) c (handlers a) (wg a) (stop a))
              (<[i := Handling msg]> (loops s)) (world s) (log s))
  | _, _ => None
  end.

(** The body of that case: the handler of [msg.Type()] if there is one,
    the "unknown message type" line otherwise; then back to the [select]. *)
Definition loop_handle (s : system) (i : nat) : option system :=
  match loops s !! i with
  | Some (Handling msg) =>
      match handlers (actor s) !! Type_ msg with
      | Some handler =>
          Some (mkSystem (actor s) (<[i := AtSelect]> (loops s))
                  (handler msg (world s)) (log s ++ [HandlerCalled msg]))
      | None =>
          Some (mkSystem (actor s) (<[i := AtSelect]> (loops s))
                  (world s) (log s ++ [UnknownType msg]))
      end
  | _ => None
  end.

(** [case <-a.stop]: the "stopping" line, [return], and the deferred
    [a.wg.Done()]. *)
Definition loop_exit (s : system) (i : nat) : option system :=
  let a := actor s in
  match loops s !! i with
  | Some AtSelect =>
      if Chan.recv_ready (stop a)
      then Some (mkSystem (mkActor (ID a) (mailbox a) (handlers a) (pred (wg a)) (stop a))
                   (<[i := Exited]> (loops s)) (world s) (log s ++ [Stopping]))
      else None
  | _ => None
  end.

(** One scheduling step; [None] when the chosen goroutine cannot move
    (it is parked, or its next statement would panic). *)
Definition step (s : system) (l : label) : option system :=
  match l with
  | LSend msg =>
      match Send (actor s) msg with
      | Some (a, Returned _) => Some (mkSystem a (loops s) (world s) (log s))
      | _ => None
      end
  | LStart => Some (Start s)
  | LRecv i => loop_recv s i
  | LHandle i => loop_handle s i
  | LExit i => loop_exit s i
  | LStopClose =>
      match Stop_close (actor s) with
      | (a, Returned _) => Some (mkSystem a (loops s) (world s) (log s))
      | _ => None
      end
  | LStopReturn =>
      if Chan.closed (stop (actor s)) && Stop_wait (actor s) then Some s else None
  end.

Abbreviation run := (Sched.run step).

(** An actor with its handlers registered and not yet started. *)
Definition with_handlers (id : string) (hs : list (string * Handler)) : Actor :=
  foldl (fun a h => RegisterHandler a (fst h) (snd h)) (NewActor id) hs.

Definition init (id : string) (hs : list (string * Handler)) (w : W) : system :=
  mkSystem (with_handlers id hs) [] w [].

(** *** Observations on runs *)

(** The messages whose Send has completed, in order. *)
Definition sent (ls : list label) : list M :=
  omap (fun l => match l with LSend msg => Some msg | _ => None end) ls.

Definition starts (ls : list label) : nat :=
  length (omap (fun l => match l with LStart => Some tt | _ => None end) ls).

(** The messages handlers have been called on, in order. *)
Definition invoked (s : system) : list M :=
  omap (fun e => match e with HandlerCalled msg => Some msg | _ => None end) (log s).

(** The messages taken out of the mailbox and dealt with, in order. *)
Definition dispatched (s : system) : list M :=
  omap (fun e => match e with
                 | HandlerCalled msg | UnknownType msg => Some msg
                 | Stopping => None
                 end) (log s).

(** The messages received but not yet dealt with. *)
Definition in_hand (s : system) : list M :=
  omap (fun pc => match pc with Handling msg => Some msg | _ => None end) (loops s).

Definition has_handler (hs : gmap string Handler) (msg : M) : bool :=
  match hs !! Type_ msg with
  | Some _ => true
  | None => false
  end.

Definition running (s : system) : nat :=
  length (omap (fun pc => match pc with Exited => None | _ => Some tt end) (loops s)).

Lemma with_handlers_shape (id : string) (hs : list (string * Handler)) :
  mailbox (with_handlers id hs) = Chan.make 100
  /\ wg (with_handlers id hs) = 0
  /\ stop (with_handlers id hs) = Chan.make 0.
Proof.
  unfold with_handlers. induction hs as [|h hs IH] using rev_ind.
  - repeat split.
  - rewrite foldl_app. cbn. exact IH.
Qed.

(** What every reachable state satisfies. *)
Record reachable_shape (hs0 : gmap string Handler) (ls : list label) (s : system) : Prop := {
  shape_cap : Chan.cap (mailbox (actor s)) = 100;
  shape_open : Chan.closed (mailbox (actor s)) = false;
  shape_handlers : handlers (actor s) = hs0;
  shape_wg : wg (actor s) = running s;
  shape_stop : Chan.buf (stop (actor s)) = [];
  shape_loops : length (loops s) = starts ls
}.

Lemma running_insert (i : nat) (pc pc' : loop_pc) (lp : list loop_pc) :
  lp !! i = Some pc ->
  length (omap (fun pc => match pc with Exited => None | _ => Some tt end) (<[i := pc']> lp))
  + (match pc with Exited => 0 | _ => 1 end)
  = length (omap (fun pc => match pc with Exited => None | _ => Some tt end) lp)
  + (match pc' with Exited => 0 | _ => 1 end).
Proof.
  intros Hi. destruct (insert_middle lp i pc pc' Hi) as (l1 & l2 & -> & ->).
  rewrite !omap_app, !length_app. cbn.
  destruct pc, pc'; cbn; lia.
Qed.

Lemma starts_snoc (ls : list label) (l : label) :
  starts (ls ++ [l]) = starts ls + match l with LStart => 1 | _ => 0 end.
Proof.
  unfold starts. rewrite omap_app, length_app. destruct l; reflexivity.
Qed.

Lemma sent_snoc (ls : list label) (l : label) :
  sent (ls ++ [l]) = sent ls ++ match l with LSend msg => [msg] | _ => [] end.
Proof.
  unfold sent. rewrite omap_app. destruct l; reflexivity.
Qed.

Ltac step_cases Hstep :=
  unfold step, loop_recv, loop_handle, loop_exit, Send, Stop_close, Chan.send,
    Chan.recv, Chan.close, Chan.recv_ready, Stop_wait, Start in Hstep;
  repeat (case_match; simplify_eq);
  repeat match goal with
         | Hand : (_ && _) = true |- _ => apply andb_prop in Hand; destruct Hand
         end;
  simplify_eq;
  cbn [actor loops world log ID mailbox handlers wg stop
       Chan.buf Chan.cap Chan.closed] in *.

Ltac running_goal :=
  unfold running in *; cbn; rewrite ?omap_app, ?length_app; cbn; try lia;
  match goal with
  | Hi : ?lp !! ?i = Some ?pc |- context [<[?i := ?pc']> ?lp] =>
      pose proof (running_insert i pc pc' lp Hi); cbn in *; lia
  end.

Lemma actor_step_shape (hs0 : gmap string Handler) (ls : list label) (l : label) (s s' : system) :
  reachable_shape hs0 ls s -> step s l = Some s' -> reachable_shape hs0 (ls ++ [l]) s'.
Proof.
  intros [Hcap Hopen Hhs Hwg Hstop Hlen] Hstep.
  destruct l; step_cases Hstep;
    (split; cbn; rewrite ?starts_snoc, ?length_app, ?length_insert; cbn;
     auto; try lia; running_goal).
Qed.

Lemma init_shape (id : string) (hs : list (string * Handler)) (w : W) :
  reachable_shape (handlers (with_handlers id hs)) [] (init id hs w).
Proof.
  destruct (with_handlers_shape id hs) as (Hm & Hw & Hs).
  split; cbn; rewrite ?Hm, ?Hw, ?Hs; reflexivity.
Qed.

Lemma run_shape (id : string) (hs : list (string * Handler)) (w : W) (ls : list label) :
  forall s, run (init id hs w) ls = Some s ->
            reachable_shape (handlers (with_handlers id hs)) ls s.
Proof.
  induction ls as [|l ls IH] using rev_ind; intros s Hrun.
  - cbn in Hrun. simplify_eq. apply init_shape.
  - rewrite Sched.run_snoc in Hrun. destruct (run (init id hs w) ls) as [s0|] eqn:E; [|discriminate].
    eapply actor_step_shape; [apply IH; reflexivity | exact Hrun].
Qed.

(** *** One dispatch goroutine: first in, first out *)

Record fifo (hs0 : gmap string Handler) (ls : list label) (s : system) : Prop := {
  fifo_queue : sent ls = dispatched s ++ in_hand s ++ Chan.buf (mailbox (actor s));
  fifo_calls : invoked s = List.filter (has_handler hs0) (dispatched s)
}.

Lemma step_fifo (hs0 : gmap string Handler) (ls : list label) (l : label) (s s' : system) :
  reachable_shape hs0 ls s ->
  starts (ls ++ [l]) <= 1 ->
  step s l = Some s' ->
  fifo hs0 ls s -> fifo hs0 (ls ++ [l]) s'.
Proof.
  intros [Hcap Hopen Hhs Hwg Hstop Hlen] Hone Hstep [Hq Hc].
  rewrite starts_snoc in Hone.
  unfold dispatched, invoked, in_hand in *.
  destruct l; step_cases Hstep;
    (split; unfold dispatched, invoked, in_hand; cbn;
     rewrite ?sent_snoc, ?omap_app, ?List.filter_app, ?app_nil_r; cbn; auto);
    try (destruct (loops s) as [|pc [|pc' lp]]; cbn in *; try lia;
         destruct i; cbn in *; simplify_eq; cbn;
         rewrite ?Hq, ?Hc, <- ?app_assoc; cbn; try reflexivity).
  all: try (rewrite Hq, <- !app_assoc; reflexivity).
  all: try (match goal with
            | |- context [has_handler ?hs ?m] =>
                let Hh := fresh "Hh" in
                destruct (has_handler hs m) eqn:Hh; unfold has_handler in Hh;
                case_match; try congruence
            end; rewrite ?app_nil_r; reflexivity).
  all: try (destruct (loops s); cbn in *; [|lia]; rewrite Hq, ?app_nil_r; reflexivity).
Qed.

Lemma run_fifo (id : string) (hs : list (string * Handler)) (w : W) (ls : list label) :
  forall s, run (init id hs w) ls = Some s ->
            starts ls <= 1 ->
            fifo (handlers (with_handlers id hs)) ls s.
Proof.
  induction ls as [|l ls IH] using rev_ind; intros s Hrun Hone.
  - cbn in Hrun. simplify_eq. destruct (with_handlers_shape id hs) as (Hm & _).
    split; cbn; [rewrite Hm|]; reflexivity.
  - rewrite Sched.run_snoc in Hrun.
    destruct (run (init id hs w) ls) as [s0|] eqn:E; [|discriminate].
    eapply step_fifo; [eapply run_shape; exact E | exact Hone | exact Hrun |].
    apply IH; [reflexivity|]. rewrite starts_snoc in Hone. lia.
Qed.

(** The schedule in which one goroutine serves each message as soon as it
    has been sent. *)
Definition serve_each (ms : list M) : list label :=
  flat_map (fun msg => [LSend msg; LRecv 0; LHandle 0]) ms.

Lemma serve_each_runs (ms : list M) : forall s : system,
  loops s = [AtSelect] ->
  mailbox (actor s) = Chan.make 100 ->
  exists s', run s (serve_each ms) = Some s'
             /\ loops s' = [AtSelect] /\ mailbox (actor s') = Chan.make 100.
Proof.
  induction ms as [|msg ms IH]; intros s Hl Hm.
  - exists s. repeat split; assumption.
  - cbn [serve_each flat_map app Sched.run step]. unfold Send. rewrite Hm. cbn.
    unfold loop_recv. cbn. rewrite Hl. cbn.
    unfold loop_handle. cbn.
    destruct (handlers (actor s) !! Type_ msg); apply IH; reflexivity.
Qed.

Lemma sent_serve_each (ms : list M) : sent (serve_each ms) = ms.
Proof.
  induction ms as [|msg ms IH]; [reflexivity|].
  unfold sent, serve_each in *. cbn. f_equal. exact IH.
Qed.

Lemma starts_serve_each (ms : list M) : starts (serve_each ms) = 0.
Proof.
  induction ms as [|msg ms IH]; [reflexivity|].
  unfold starts, serve_each in *. cbn. exact IH.
Qed.

(** *** What the handlers have done *)

(** The effect of the body of the mailbox case for one message on the
    state the handlers act on: the handler of the message's type applied
    to it, or nothing when the table has none. *)
Definition apply_handler (hs : gmap string Handler) (w : W) (msg : M) : W :=
  match hs !! Type_ msg with
  | Some handler => handler msg w
  | None => w
  end.

Lemma step_world (hs0 : gmap string Handler) (w : W) (l : label) (s s' : system) :
  handlers (actor s) = hs0 ->
  step s l = Some s' ->
  world s = foldl (apply_handler hs0) w (dispatched s) ->
  world s' = foldl (apply_handler hs0) w (dispatched s').
Proof.
  intros Hhs Hstep Hw. subst hs0. unfold dispatched in *.
  destruct l; step_cases Hstep; rewrite ?omap_app, ?foldl_app; cbn; rewrite ?app_nil_r;
    try exact Hw;
    unfold apply_handler in *;
    match goal with
    | Hh : handlers _ !! _ = _ |- _ => rewrite Hh
    end; rewrite <- Hw; reflexivity.
Qed.

(** With any number of dispatch goroutines, the state the handlers act on
    is the initial one with the handlers applied to the messages dealt
    with, in the order in which they were dealt with. *)
Lemma run_world (id : string) (hs : list (string * Handler)) (w : W) (ls : list label) :
  forall s, run (init id hs w) ls = Some s ->
            world s = foldl (apply_handler (handlers (with_handlers id hs))) w (dispatched s).
Proof.
  induction ls as [|l ls IH] using rev_ind; intros s Hrun.
  - cbn in Hrun. simplify_eq. reflexivity.
  - rewrite Sched.run_snoc in Hrun.
    destruct (run (init id hs w) ls) as [s0|] eqn:E; [|discriminate].
    eapply step_world; [|exact Hrun|apply IH; reflexivity].
    exact (shape_handlers _ _ _ (run_shape id hs w ls s0 E)).
Qed.

(** C3 (for an actor started at most once): whatever the scheduler does,
    the messages sent are, in the order of the sends, those the dispatch
    goroutine has dealt with, the one it has in hand and those still
    queued; the handlers have been called on the messages dealt with
    that have one, in that order, and the state they act on is the
    initial one with exactly these handlers applied in that order (for a
    message of a type without handler the loop prints a line and calls
    nothing). And for every m1..mN there is a run with one Start in
    which the handlers have been applied to all of them, in that order. *)
Theorem handlers_fire_in_send_order (id : string) (hs : list (string * Handler)) (w : W) :
  (forall ls s,
     run (init id hs w) ls = Some s ->
     starts ls <= 1 ->
     sent ls = dispatched s ++ in_hand s ++ Chan.buf (mailbox (actor s))
     /\ invoked s = List.filter (has_handler (handlers (with_handlers id hs))) (dispatched s)
     /\ world s = foldl (apply_handler (handlers (with_handlers id hs))) w (dispatched s))
  /\ (forall ms, exists ls s,
        sent ls = ms /\ starts ls = 1 /\ run (init id hs w) ls = Some s
        /\ invoked s = List.filter (has_handler (handlers (with_handlers id hs))) ms
        /\ world s = foldl (apply_handler (handlers (with_handlers id hs))) w ms).
Proof.
  split.
  - intros ls s Hrun Hone. destruct (run_fifo id hs w ls s Hrun Hone) as [Hq Hc].
    split; [exact Hq|]. split; [exact Hc|]. apply (run_world id hs w ls s Hrun).
  - intros ms.
    destruct (serve_each_runs ms (Start (init id hs w))) as (s & Hs & Hl & Hm).
    { reflexivity. }
    { cbn. apply with_handlers_shape. }
    assert (Hrun : run (init id hs w) (LStart :: serve_each ms) = Some s) by exact Hs.
    assert (Hst : starts (LStart :: serve_each ms) = 1).
    { unfold starts. cbn. fold (starts (serve_each ms)).
      rewrite starts_serve_each. reflexivity. }
    destruct (run_fifo id hs w _ s Hrun ltac:(lia)) as [Hq Hc].
    assert (Hd : dispatched s = ms).
    { unfold sent in Hq. cbn in Hq. fold (sent (serve_each ms)) in Hq.
      rewrite sent_serve_each in Hq. unfold in_hand in Hq.
      rewrite Hl, Hm in Hq. cbn in Hq. rewrite app_nil_r in Hq. congruence. }
    exists (LStart :: serve_each ms), s. split; [|split; [|split; [|split]]].
    + unfold sent. cbn. apply sent_serve_each.
    + exact Hst.
    + exact Hrun.
    + rewrite Hc, Hd. reflexivity.
    + rewrite <- Hd. apply (run_world id hs w _ s Hrun).
Qed.

(** *** A stopped actor *)

Lemma running_zero (lp : list loop_pc) : forall (i : nat) (pc : loop_pc),
  length (omap (fun pc => match pc with Exited => None | _ => Some tt end) lp) = 0 ->
  lp !! i = Some pc -> pc = Exited.
Proof.
  induction lp as [|pc0 lp IH]; intros i pc Hz Hi; [discriminate|].
  destruct pc0; cbn in Hz; try discriminate.
  destruct i; cbn in Hi; [congruence | eauto].
Qed.

(** With every dispatch goroutine returned and no further Start, sends
    are the only steps that change anything: they fill the mailbox. *)
Lemma stopped_is_quiet (ls : list label) : forall s s' : system,
  running s = 0 ->
  starts ls = 0 ->
  run s ls = Some s' ->
  log s' = log s /\ world s' = world s /\ loops s' = loops s
  /\ mailbox (actor s') =
       Chan.mkChan (Chan.buf (mailbox (actor s)) ++ sent ls)
         (Chan.cap (mailbox (actor s))) (Chan.closed (mailbox (actor s))).
Proof.
  induction ls as [|l ls IH]; intros s s' Hz Hst Hrun.
  - cbn in Hrun. simplify_eq. unfold sent. cbn. rewrite app_nil_r.
    destruct (mailbox (actor s')); repeat split.
  - cbn [Sched.run] in Hrun. destruct (step s l) as [s1|] eqn:Hstep; [|discriminate].
    assert (Hst' : starts ls = 0 /\ l <> LStart).
    { unfold starts in *. destruct l; cbn in Hst; try discriminate; split; congruence. }
    destruct Hst' as [Hst' Hl].
    assert (H1 : log s1 = log s /\ world s1 = world s /\ loops s1 = loops s
                 /\ mailbox (actor s1) =
                      Chan.mkChan (Chan.buf (mailbox (actor s))
                                   ++ match l with LSend msg => [msg] | _ => [] end)
                        (Chan.cap (mailbox (actor s))) (Chan.closed (mailbox (actor s)))).
    { unfold running in Hz.
      destruct l; try congruence; step_cases Hstep;
        try (match goal with
             | Hi : loops s !! _ = Some _ |- _ =>
                 pose proof (running_zero _ _ _ Hz Hi); discriminate
             end);
        rewrite ?app_nil_r; repeat split;
        try (match goal with
             | |- ?m = Chan.mkChan _ _ _ => destruct m; reflexivity
             end);
        try congruence. }
    destruct H1 as (Hlog & Hw & Hlp & Hmb).
    destruct (IH s1 s') as (Hlog' & Hw' & Hlp' & Hmb'); [|exact Hst'|exact Hrun|].
    { unfold running in *. rewrite Hlp. exact Hz. }
    rewrite Hlog', Hw', Hlp', Hmb', Hmb. cbn. repeat split; try assumption.
    rewrite <- app_assoc. unfold sent. destruct l; reflexivity.
Qed.

Lemma stop_return_inv (s s1 : system) :
  step s LStopReturn = Some s1 ->
  s1 = s /\ Chan.closed (stop (actor s)) = true /\ wg (actor s) = 0.
Proof.
  cbn. unfold Stop_wait.
  destruct (Chan.closed (stop (actor s))); [|discriminate].
  destruct (wg (actor s)); [|discriminate].
  intros [= <-]. repeat split.
Qed.

(** C9 (as the code has it): a dispatch goroutine at its [select] can
    take the stop case as soon as Stop has closed the channel, whatever
    is queued, and leaves the queue and the handlers' state as they are.
    Once Stop has returned, as long as Start is not called again, no
    message is taken out of the mailbox and no handler is applied: the
    queued messages stay, later sends queue behind them. But Start has no
    guard: called after Stop has returned, it spawns a goroutine that
    can receive the oldest queued message and apply its handler. *)
Theorem stop_does_not_drain (id : string) (hs : list (string * Handler)) (w : W)
    (ls : list label) (s : system) :
  run (init id hs w) ls = Some s ->
  (forall i, loops s !! i = Some AtSelect ->
             Chan.closed (stop (actor s)) = true ->
             exists s', step s (LExit i) = Some s'
                        /\ mailbox (actor s') = mailbox (actor s)
                        /\ invoked s' = invoked s
                        /\ world s' = world s)
  /\ (forall s1, step s LStopReturn = Some s1 ->
       (forall ls' s', starts ls' = 0 -> run s1 ls' = Some s' ->
          invoked s' = invoked s1
          /\ dispatched s' = dispatched s1
          /\ world s' = world s1
          /\ Chan.buf (mailbox (actor s')) = Chan.buf (mailbox (actor s1)) ++ sent ls')
       /\ (forall msg rest,
             Chan.buf (mailbox (actor s1)) = msg :: rest ->
             exists s',
               run s1 [LStart; LRecv (length (loops s1)); LHandle (length (loops s1))]
                 = Some s'
               /\ dispatched s' = dispatched s1 ++ [msg]
               /\ invoked s' =
                    invoked s1 ++ (if has_handler (handlers (actor s1)) msg then [msg] else [])
               /\ world s' = apply_handler (handlers (actor s1)) (world s1) msg
               /\ Chan.buf (mailbox (actor s')) = rest)).
Proof.
  intros Hrun. pose proof (run_shape id hs w ls s Hrun) as Hshape. split.
  - intros i Hi Hclosed. unfold step, loop_exit, Chan.recv_ready, Chan.recv.
    rewrite Hi, (shape_stop _ _ _ Hshape), Hclosed.
    eexists. split; [reflexivity|]. split; [reflexivity|]. split; [|reflexivity].
    unfold invoked. cbn. rewrite omap_app. cbn. apply app_nil_r.
  - intros s1 Hret.
    destruct (stop_return_inv s s1 Hret) as (-> & _ & Hwg).
    assert (Hz : running s = 0).
    { rewrite <- (shape_wg _ _ _ Hshape). exact Hwg. }
    split.
    + intros ls' s' Hst Hrun'.
      destruct (stopped_is_quiet ls' s s' Hz Hst Hrun') as (Hlog & Hw & _ & Hmb).
      unfold invoked, dispatched. rewrite Hlog, Hmb, Hw. repeat split.
    + intros msg rest Hbuf.
      cbn [Sched.run step]. unfold loop_recv, Start. cbn [actor loops world log mailbox].
      rewrite list_lookup_middle by reflexivity.
      unfold Chan.recv. rewrite Hbuf.
      cbn [Sched.run step]. unfold loop_handle.
      cbn [actor loops world log mailbox handlers].
      rewrite list_lookup_insert_eq by (rewrite length_app; cbn; lia).
      unfold invoked, dispatched, apply_handler, has_handler.
      destruct (handlers (actor s) !! Type_ msg) as [h|];
        (eexists; split; [reflexivity|]); cbn; rewrite !omap_app; cbn;
        rewrite ?app_nil_r; repeat split.
Qed.


(** C10: on an actor whose stop channel is already closed, Stop panics
    at its first statement, with "close of closed channel". *)
Theorem second_stop_panics (a : Actor) :
  Chan.closed (stop a) = true ->
  Stop a = Some (a, Panicked close_of_closed).
Proof.
  intros Hclosed. unfold Stop, Stop_close, Chan.close. rewrite Hclosed.
  destruct a; reflexivity.
Qed.

End WithMessage.
Arguments Actor M W : clear implicits.
Arguments system M W : clear implicits.

Abbreviation run := (Sched.run step).

(** *** The printer actor of basicActorExample *)

(** The two printing handlers of the example, acting on the lines printed
    so far (without the "Actor printer: " in front of each line). The
    example registers a third handler, for "stop", which calls
    [actor.Stop()] from inside the dispatch goroutine; a handler that is
    a function on the printed lines cannot do that, and it is not in
    this table: in the runs below no message of type "stop" is taken
    out of the mailbox. *)
Definition printer_handlers : list (string * (BasicMessage -> list string -> list string)) :=
  [("string", fun msg out =>
      match msg with
      | StringMessage c => out ++ [String.append "received string message " c]
      | _ => out
      end);
   ("number", fun msg out =>
      match msg with
      | NumberMessage _ => out ++ ["received number message"]
      | _ => out
      end)].

Definition printer : system BasicMessage (list string) :=
  init "printer" printer_handlers [].

Definition printer_schedule : list (label (M := BasicMessage)) :=
  [LStart; LSend (StringMessage "Hello, Actor!"); LSend (NumberMessage 42);
   LRecv 0; LSend (PingMessage 1); LHandle 0; LSend (StringMessage "Another message");
   LRecv 0; LHandle 0; LRecv 0; LHandle 0].

(** C3 on the printer: three messages with a handler and one without;
    the last one is still queued. *)
Lemma handlers_fire_in_send_order_witness :
  match run printer printer_schedule with
  | Some s =>
      dispatched s = [StringMessage "Hello, Actor!"; NumberMessage 42; PingMessage 1]
      /\ sent printer_schedule =
           dispatched s ++ in_hand s ++ Chan.buf (mailbox (actor s))
      /\ invoked s =
           List.filter (has_handler (handlers (with_handlers "printer" printer_handlers)))
             (dispatched s)
      /\ world s =
           foldl (apply_handler (handlers (with_handlers "printer" printer_handlers))) []
             (dispatched s)
  | None => False
  end.
Proof.
  destruct (run printer printer_schedule) as [s|] eqn:E;
    [|vm_compute in E; discriminate].
  split.
  - vm_compute in E. injection E as <-. reflexivity.
  - apply (proj1 (handlers_fire_in_send_order "printer" printer_handlers [])
             printer_schedule s E).
    vm_compute. lia.
Defined.

Definition stop_schedule : list (label (M := BasicMessage)) :=
  [LStart; LSend (StringMessage "Hello, Actor!"); LSend (NumberMessage 42);
   LStopClose; LExit 0].

(** C9 on the printer: Stop with two messages queued, then a late send. *)
Lemma stop_does_not_drain_witness :
  match run printer stop_schedule with
  | Some s =>
      step s LStopReturn = Some s
      /\ forall s', run s [LSend StopMessage] = Some s' ->
           invoked s' = invoked s
           /\ dispatched s' = dispatched s
           /\ world s' = world s
           /\ Chan.buf (mailbox (actor s')) =
                Chan.buf (mailbox (actor s)) ++ sent [LSend StopMessage]
  | None => False
  end.
Proof.
  destruct (run printer stop_schedule) as [s|] eqn:E;
    [|vm_compute in E; discriminate].
  assert (Hret : step s LStopReturn = Some s).
  { vm_compute in E. injection E as <-. reflexivity. }
  split; [exact Hret|]. intros s' Hrun.
  exact (proj1 (proj2 (stop_does_not_drain "printer" printer_handlers [] stop_schedule s E)
                  s Hret) [LSend StopMessage] s' eq_refl Hrun).
Defined.



(** C3 as stated fails: Start has no guard, and on a printer started
    twice, with "a" sent before "b" by one sender, the two dispatch
    goroutines take one message each and the handler is applied to "b"
    first: the line for "b" is printed before the line for "a". *)
Lemma two_loops_can_reorder :
  sent [LStart; LStart; LSend (StringMessage "a"); LSend (StringMessage "b");
        LRecv 0; LRecv 1; LHandle 1; LHandle 0]
  = [StringMessage "a"; StringMessage "b"]
  /\ match run printer
            [LStart; LStart; LSend (StringMessage "a"); LSend (StringMessage "b");
             LRecv 0; LRecv 1; LHandle 1; LHandle 0] with
     | Some s =>
         invoked s = [StringMessage "b"; StringMessage "a"]
         /\ world s = ["received string message b"; "received string message a"]
     | None => False
     end.
Proof. vm_compute. repeat split. Qed.

(** C9 as stated fails: on the printer stopped with two messages queued,
    after Stop has returned, a Start spawns a goroutine both cases of
    whose [select] are ready; it can take the first queued message, and
    the handler is applied to it. *)
Lemma restarted_actor_can_deliver :
  match run printer (stop_schedule ++ [LStopReturn]) with
  | Some s =>
      running s = 0
      /\ invoked s = []
      /\ Chan.buf (mailbox (actor s)) = [StringMessage "Hello, Actor!"; NumberMessage 42]
      /\ match run s [LStart; LRecv 1; LHandle 1] with
         | Some s' =>
             invoked s' = [StringMessage "Hello, Actor!"]
             /\ world s' = ["received string message Hello, Actor!"]
             /\ Chan.buf (mailbox (actor s')) = [NumberMessage 42]
         | None => False
         end
  | None => False
  end.
Proof. vm_compute. repeat split. Qed.

(** C10 on the printer: Stop, then Stop again. *)
Lemma second_stop_panics_witness :
  let a0 : Actor BasicMessage (list string) := with_handlers "printer" printer_handlers in
  exists a1, Stop a0 = Some (a1, Returned tt)
             /\ Stop a1 = Some (a1, Panicked close_of_closed).
Proof.
  intros a0. exists (fst (Stop_close a0)). split.
  - reflexivity.
  - apply second_stop_panics. reflexivity.
Defined.

(** *** More on the mailbox, on Stop and on RegisterHandler *)

Section Accounting.
Context {M : Type} `{Message M} {W : Type}.

(** What an actor holds of the messages sent to it. *)
Definition held (s : system M W) : list M :=
  dispatched s ++ in_hand s ++ Chan.buf (mailbox (actor s)).

Definition stopping_lines (s : system M W) : nat :=
  length (omap (fun e => match e with Stopping => Some tt | _ => None end) (log s)).

Definition exited (s : system M W) : nat :=
  length (omap (fun pc : loop_pc (M := M) => match pc with Exited => Some tt | _ => None end) (loops s)).

(** The handler a dispatch goroutine finds for a type: the one of the
    last RegisterHandler call for it. *)
Fixpoint latest (t : string) (hs : list (string * (M -> W -> W))) : option (M -> W -> W) :=
  match hs with
  | [] => None
  | (t', h) :: hs' =>
      match latest t hs' with
      | Some h' => Some h'
      | None => if decide (t' = t) then Some h else None
      end
  end.

Ltac split_step Hstep :=
  unfold step, loop_recv, loop_handle, loop_exit, Send, Stop_close, Chan.send,
    Chan.recv, Chan.close, Chan.recv_ready, Stop_wait, Start in Hstep;
  repeat (case_match; simplify_eq);
  simplify_eq;
  cbn [actor loops world log ID mailbox handlers wg stop
       Chan.buf Chan.cap Chan.closed] in *.

Ltac split_loops :=
  match goal with
  | Hi : ?lp !! ?i = Some ?pc |- context [<[?i := ?pc']> ?lp] =>
      let l1 := fresh "l1" in
      let l2 := fresh "l2" in
      let E := fresh "E" in
      let E' := fresh "E'" in
      destruct (insert_middle lp i pc pc' Hi) as (l1 & l2 & E & E');
      rewrite E'; rewrite E
  end.

Lemma step_bounded (hs0 : gmap string (M -> W -> W)) (ls : list label)
    (l : label) (s s' : system M W) :
  reachable_shape hs0 ls s ->
  step s l = Some s' ->
  length (Chan.buf (mailbox (actor s))) <= 100 ->
  length (Chan.buf (mailbox (actor s'))) <= 100.
Proof.
  intros Hshape Hstep Hle. pose proof (shape_cap _ _ _ Hshape) as Hcap.
  destruct l; split_step Hstep; try assumption.
  - rewrite length_app. cbn.
    match goal with Hlt : (_ <? _) = true |- _ => apply Nat.ltb_lt in Hlt end. lia.
  - cbn in Hle. lia.
Qed.

Lemma run_bounded_mailbox (id : string) (hs : list (string * (M -> W -> W))) (w : W)
    (ls : list label) :
  forall s, run (init id hs w) ls = Some s ->
            length (Chan.buf (mailbox (actor s))) <= 100.
Proof.
  induction ls as [|l ls IH] using rev_ind; intros s Hrun.
  - cbn in Hrun. simplify_eq. cbn.
    rewrite (proj1 (with_handlers_shape id hs)). cbn. lia.
  - rewrite Sched.run_snoc in Hrun.
    destruct (run (init id hs w) ls) as [s0|] eqn:E; [|discriminate].
    eapply step_bounded; [eapply run_shape; exact E | exact Hrun | apply IH; reflexivity].
Qed.

(** X4: in every run the mailbox holds at most 100 messages; Send parks
    its caller exactly when it holds 100, and otherwise appends the
    message and returns: it drops nothing and never panics. *)
Theorem mailbox_is_bounded_and_blocking (id : string) (hs : list (string * (M -> W -> W)))
    (w : W) (ls : list label) (s : system M W) (msg : M) :
  run (init id hs w) ls = Some s ->
  length (Chan.buf (mailbox (actor s))) <= 100
  /\ (Send (actor s) msg = None <-> length (Chan.buf (mailbox (actor s))) = 100)
  /\ (length (Chan.buf (mailbox (actor s))) < 100 ->
      exists a, Send (actor s) msg = Some (a, Returned tt)
                /\ Chan.buf (mailbox a) = Chan.buf (mailbox (actor s)) ++ [msg])
  /\ (forall a text, Send (actor s) msg <> Some (a, Panicked text)).
Proof.
  intros Hrun. pose proof (run_bounded_mailbox id hs w ls s Hrun) as Hle.
  pose proof (run_shape id hs w ls s Hrun) as Hshape.
  unfold Send, Chan.send.
  rewrite (shape_open _ _ _ Hshape), (shape_cap _ _ _ Hshape).
  split; [exact Hle|].
  destruct (length (Chan.buf (mailbox (actor s))) <? 100) eqn:E.
  - apply Nat.ltb_lt in E. split; [split; [discriminate | lia]|].
    split; [|discriminate]. intros _. eexists. split; reflexivity.
  - apply Nat.ltb_ge in E. split; [split; [lia | reflexivity]|].
    split; [lia | discriminate].
Qed.

Lemma in_hand_app (l1 l2 : list (loop_pc (M := M))) :
  omap (fun pc : loop_pc (M := M) => match pc with Handling msg => Some msg | _ => None end) (l1 ++ l2)
  = omap (fun pc : loop_pc (M := M) => match pc with Handling msg => Some msg | _ => None end) l1
    ++ omap (fun pc : loop_pc (M := M) => match pc with Handling msg => Some msg | _ => None end) l2.
Proof. apply omap_app. Qed.

Lemma step_conserves (s : system M W) (l : label) (s' : system M W) :
  step s l = Some s' ->
  match l with LSend msg => [msg] | _ => [] end ++ held s ≡ₚ held s'.
Proof.
  intros Hstep. unfold held, dispatched, in_hand.
  destruct l; split_step Hstep; cbn [app];
    rewrite ?omap_app; cbn [omap list_omap]; rewrite ?app_nil_r;
    try split_loops; rewrite ?in_hand_app; cbn [omap list_omap];
    try reflexivity;
    rewrite <- ?app_assoc; cbn [app];
    rewrite <- ?Permutation_cons_append; repeat rewrite <- Permutation_middle;
    reflexivity.
Qed.

Lemma run_conserves (ls : list label) : forall s s' : system M W,
  run s ls = Some s' -> sent ls ++ held s ≡ₚ held s'.
Proof.
  induction ls as [|l ls IH]; intros s s' Hrun.
  - cbn in Hrun. simplify_eq. reflexivity.
  - cbn [Sched.run] in Hrun. destruct (step s l) as [s1|] eqn:Hstep; [|discriminate].
    rewrite <- (IH s1 s' Hrun), <- (step_conserves s l s1 Hstep).
    unfold sent. destruct l; cbn; try reflexivity.
    apply Permutation_middle.
Qed.

(** X5: with any number of dispatch goroutines, the messages dealt with,
    those in the hands of a goroutine and those queued are, counted with
    repetition, the messages whose Send has returned: none is lost and
    none is handled twice. *)
Theorem no_message_lost_or_duplicated (id : string) (hs : list (string * (M -> W -> W)))
    (w : W) (ls : list label) (s : system M W) :
  run (init id hs w) ls = Some s ->
  sent ls ≡ₚ dispatched s ++ in_hand s ++ Chan.buf (mailbox (actor s)).
Proof.
  intros Hrun. rewrite <- (run_conserves ls _ _ Hrun).
  unfold held, dispatched, in_hand. cbn.
  rewrite (proj1 (with_handlers_shape id hs)). cbn. rewrite app_nil_r. reflexivity.
Qed.

Lemma exited_insert (i : nat) (pc pc' : loop_pc (M := M)) (lp : list (loop_pc (M := M))) :
  lp !! i = Some pc ->
  length (omap (fun pc : loop_pc (M := M) => match pc with Exited => Some tt | _ => None end) (<[i := pc']> lp))
  + (match pc with Exited => 1 | _ => 0 end)
  = length (omap (fun pc : loop_pc (M := M) => match pc with Exited => Some tt | _ => None end) lp)
  + (match pc' with Exited => 1 | _ => 0 end).
Proof.
  intros Hi. destruct (insert_middle lp i pc pc' Hi) as (l1 & l2 & -> & ->).
  rewrite !omap_app, !length_app. cbn.
  destruct pc, pc'; cbn; lia.
Qed.

Lemma step_stopping (s : system M W) (l : label) (s' : system M W) :
  step s l = Some s' ->
  stopping_lines s = exited s -> stopping_lines s' = exited s'.
Proof.
  intros Hstep. unfold stopping_lines, exited.
  destruct l; split_step Hstep; cbn; rewrite ?omap_app, ?length_app; cbn; try lia;
    match goal with
    | Hi : ?lp !! ?i = Some ?pc |- context [<[?i := ?pc']> ?lp] =>
        pose proof (exited_insert i pc pc' lp Hi); cbn in *; lia
    end.
Qed.

Lemma run_stopping (ls : list label) : forall s s' : system M W,
  run s ls = Some s' ->
  stopping_lines s = exited s -> stopping_lines s' = exited s'.
Proof.
  induction ls as [|l ls IH]; intros s s' Hrun Heq.
  - cbn in Hrun. simplify_eq. exact Heq.
  - cbn [Sched.run] in Hrun. destruct (step s l) as [s1|] eqn:Hstep; [|discriminate].
    eapply IH; [exact Hrun|]. eapply step_stopping; eassumption.
Qed.

Lemma all_exited (lp : list (loop_pc (M := M))) :
  length (omap (fun pc : loop_pc (M := M) => match pc with Exited => None | _ => Some tt end) lp) = 0 ->
  Forall (fun pc => pc = Exited) lp
  /\ length (omap (fun pc : loop_pc (M := M) => match pc with Exited => Some tt | _ => None end) lp) = length lp
  /\ omap (fun pc : loop_pc (M := M) => match pc with Handling msg => Some msg | _ => None end) lp = [].
Proof.
  induction lp as [|pc lp IH]; intros Hz; [repeat split; constructor|].
  destruct pc; cbn in Hz; try discriminate.
  destruct (IH Hz) as (Hall & Hlen & Hhand). cbn. repeat split.
  - constructor; [reflexivity | exact Hall].
  - rewrite Hlen. reflexivity.
  - exact Hhand.
Qed.

(** X6: Stop returns only when every dispatch goroutine spawned so far has
    returned: none is at its [select] or inside a handler, and each has
    printed its "stopping" line, once. *)
Theorem stop_joins_every_goroutine (id : string) (hs : list (string * (M -> W -> W)))
    (w : W) (ls : list label) (s s' : system M W) :
  run (init id hs w) ls = Some s ->
  step s LStopReturn = Some s' ->
  Forall (fun pc => pc = Exited) (loops s)
  /\ in_hand s = []
  /\ stopping_lines s = starts ls.
Proof.
  intros Hrun Hret. pose proof (run_shape id hs w ls s Hrun) as Hshape.
  destruct (stop_return_inv s s' Hret) as (_ & _ & Hwg).
  rewrite (shape_wg _ _ _ Hshape) in Hwg. unfold running in Hwg.
  destruct (all_exited (loops s) Hwg) as (Hall & Hlen & Hhand).
  split; [exact Hall|]. split; [exact Hhand|].
  rewrite (run_stopping ls _ s Hrun eq_refl). unfold exited.
  rewrite Hlen. apply (shape_loops _ _ _ Hshape).
Qed.

Lemma registered_lookup (t : string) (hs : list (string * (M -> W -> W))) :
  forall a : Actor M W,
    handlers (foldl (fun a h => RegisterHandler a (fst h) (snd h)) a hs) !! t
    = match latest t hs with Some h => Some h | None => handlers a !! t end.
Proof.
  induction hs as [|[t' h] hs IH]; intros a; [reflexivity|].
  cbn [foldl latest fst snd]. rewrite IH.
  destruct (latest t hs); [reflexivity|]. cbn.
  destruct (decide (t' = t)) as [->|Hne].
  - apply lookup_insert_eq.
  - apply lookup_insert_ne. exact Hne.
Qed.

(** X7: registering handlers leaves mailbox, counter and stop channel as
    NewActor made them, and the table maps each type to the handler of
    the last RegisterHandler call for it (an earlier handler of the type
    is replaced) and to nothing if there was no call; that handler is
    the one a dispatch goroutine calls. *)
Theorem last_registration_wins (id : string) (hs : list (string * (M -> W -> W)))
    (w : W) (loop_pcs : list loop_pc) (lg : list event) (i : nat) (msg : M) :
  handlers (with_handlers id hs) !! Type_ msg = latest (Type_ msg) hs
  /\ mailbox (with_handlers id hs) = Chan.make 100
  /\ (loop_pcs !! i = Some (Handling msg) ->
      step (mkSystem (with_handlers id hs) loop_pcs w lg) (LHandle i) =
        Some (mkSystem (with_handlers id hs) (<[i := AtSelect]> loop_pcs)
                (match latest (Type_ msg) hs with Some h => h msg w | None => w end)
                (lg ++ [match latest (Type_ msg) hs with
                        | Some _ => HandlerCalled msg
                        | None => UnknownType msg
                        end]))).
Proof.
  assert (Hl : handlers (with_handlers id hs) !! Type_ msg = latest (Type_ msg) hs).
  { unfold with_handlers. rewrite registered_lookup. cbn.
    destruct (latest (Type_ msg) hs); [reflexivity | apply lookup_empty]. }
  split; [exact Hl|]. split; [apply with_handlers_shape|].
  intros Hi. cbn. unfold loop_handle. cbn. rewrite Hi, Hl.
  destruct (latest (Type_ msg) hs); reflexivity.
Qed.

End Accounting.

(** X4 on the printer with a full mailbox and no goroutine started. *)
Lemma mailbox_is_bounded_and_blocking_witness :
  match run printer (repeat (LSend StopMessage) 100) with
  | Some s => length (Chan.buf (mailbox (actor s))) <= 100
              /\ Send (actor s) (NumberMessage 1) = None
  | None => False
  end.
Proof.
  destruct (run printer (repeat (LSend StopMessage) 100)) as [s|] eqn:E;
    [|vm_compute in E; discriminate].
  destruct (mailbox_is_bounded_and_blocking "printer" printer_handlers []
              (repeat (LSend StopMessage) 100) s (NumberMessage 1) E)
    as (Hle & Hfull & _).
  split; [exact Hle|]. apply Hfull.
  vm_compute in E. injection E as <-. reflexivity.
Defined.

(** X5 on the run with two dispatch goroutines. *)
Lemma no_message_lost_or_duplicated_witness :
  match run printer [LStart; LStart; LSend (StringMessage "a"); LSend (StringMessage "b");
                     LRecv 0; LRecv 1; LHandle 1] with
  | Some s =>
      [StringMessage "a"; StringMessage "b"]
      ≡ₚ dispatched s ++ in_hand s ++ Chan.buf (mailbox (actor s))
  | None => False
  end.
Proof.
  destruct (run printer [LStart; LStart; LSend (StringMessage "a");
                         LSend (StringMessage "b"); LRecv 0; LRecv 1; LHandle 1])
    as [s|] eqn:E; [|vm_compute in E; discriminate].
  exact (no_message_lost_or_duplicated "printer" printer_handlers [] _ s E).
Defined.

(** X6 on the stopped printer. *)
Lemma stop_joins_every_goroutine_witness :
  match run printer stop_schedule with
  | Some s => Forall (fun pc => pc = Exited) (loops s) /\ stopping_lines s = 1
  | None => False
  end.
Proof.
  destruct (run printer stop_schedule) as [s|] eqn:E;
    [|vm_compute in E; discriminate].
  assert (Hret : step s LStopReturn = Some s).
  { vm_compute in E. injection E as <-. reflexivity. }
  destruct (stop_joins_every_goroutine "printer" printer_handlers [] stop_schedule
              s s E Hret) as (Hall & _ & Hlines).
  split; [exact Hall | exact Hlines].
Defined.

(** X7 on a printer whose "string" handler is registered twice. *)
Lemma last_registration_wins_witness :
  step (mkSystem (with_handlers "printer"
                    (printer_handlers ++ [("string", fun _ out => out ++ ["second"])]))
          [Handling (StringMessage "x")] [] [])
       (LHandle 0)
  = Some (mkSystem (with_handlers "printer"
                      (printer_handlers ++ [("string", fun _ out => out ++ ["second"])]))
            [AtSelect] ["second"] [HandlerCalled (StringMessage "x")]).
Proof.
  exact (proj2 (proj2 (last_registration_wins "printer"
           (printer_handlers ++ [("string", fun _ out => out ++ ["second"])])
           [] [Handling (StringMessage "x")] [] 0 (StringMessage "x"))) eq_refl).
Defined.

End Actor.

(** ** Observable (the reactive example) *)
Module Observable.

Section WithValue.
Context {V : Type}.

(** Channels are objects shared between the Observable and its
    subscribers: a reference is an index into the store of channels. *)
Abbreviation ref := nat.
Abbreviation store := (list (Chan.chan V)).

Record Observable : Type := mkObservable {
  observers : list ref;
  closed : bool
}.

Definition NewObservable : Observable := mkObservable [] false.

(** [make(chan interface{}, 10)] *)
Definition alloc (h : store) : store * ref := (h ++ [Chan.make 10], length h).

(** Subscribe (README.md:1357-1368) returns the new channel, or nil
    ([None]) once closed. *)
Definition Subscribe (h : store) (o : Observable) : store * Observable * option ref :=
  if closed o then (h, o, None)
  else
    let '(h', ch) := alloc h in
    (h', mkObservable (observers o ++ [ch]) (closed o), Some ch).

(** The loop of Emit (README.md:1379-1385):
    [for _, observer := range o.observers { select { case observer <-
    data: default: } }]; a send on a closed channel panics, a nil
    channel is never ready. *)
Fixpoint emit_loop (h : store) (rs : list ref) (data : V) : store * outcome unit :=
  match rs with
  | [] => (h, Returned tt)
  | r :: rs' =>
      match h !! r with
      | Some c =>
          match Chan.try_send c data with
          | Chan.TrySent c' => emit_loop (<[r := c']> h) rs' data
          | Chan.TryDefault => emit_loop h rs' data
          | Chan.TryPanics => (h, Panicked send_on_closed)
          end
      | None => emit_loop h rs' data
      end
  end.

Definition Emit (h : store) (o : Observable) (data : V) : store * Observable * outcome unit :=
  if closed o then (h, o, Returned tt)
  else let '(h', out) := emit_loop h (observers o) data in (h', o, out).

(** [for _, observer := range o.observers { close(observer) }] *)
Fixpoint close_loop (h : store) (rs : list ref) : store * outcome unit :=
  match rs with
  | [] => (h, Returned tt)
  | r :: rs' =>
      match h !! r with
      | Some c =>
          match Chan.close c with
          | (c', Returned _) => close_loop (<[r := c']> h) rs'
          | (_, Panicked msg) => (h, Panicked msg)
          end
      | None => (h, Panicked "close of nil channel")
      end
  end.

(** Close (README.md:1389-1398): [o.closed = true], the loop, then
    [o.observers = nil]; a panic in the loop leaves the slice as it is. *)
Definition Close (h : store) (o : Observable) : store * Observable * outcome unit :=
  match close_loop h (observers o) with
  | (h', Returned _) => (h', mkObservable [] true, Returned tt)
  | (h', Panicked msg) => (h', mkObservable (observers o) true, Panicked msg)
  end.

(** A subscriber's [<-ch]. *)
Definition Receive (h : store) (ch : ref) : option (store * option V) :=
  match h !! ch with
  | Some c =>
      match Chan.recv c with
      | Chan.RecvOk v c' => Some (<[ch := c']> h, Some v)
      | Chan.RecvClosed => Some (h, None)
      | Chan.RecvBlocks => None
      end
  | None => None
  end.

(** What a non-blocking send of [data] leaves in a channel. *)
Definition offered (c : Chan.chan V) (data : V) : Chan.chan V :=
  if length (Chan.buf c) <? Chan.cap c
  then Chan.mkChan (Chan.buf c ++ [data]) (Chan.cap c) (Chan.closed c)
  else c.

(** *** Runs of a program using one Observable *)

Inductive op : Type :=
  | OpSubscribe
  | OpEmit (data : V)
  | OpClose
  | OpReceive (ch : ref).

Definition apply_op (st : store * Observable) (a : op) : store * Observable :=
  let '(h, o) := st in
  match a with
  | OpSubscribe => fst (Subscribe h o)
  | OpEmit data => fst (Emit h o data)
  | OpClose => fst (Close h o)
  | OpReceive ch =>
      match Receive h ch with
      | Some (h', _) => (h', o)
      | None => (h, o)
      end
  end.

Definition after (ops : list op) : store * Observable :=
  foldl apply_op ([], NewObservable) ops.

(** The registered channels are distinct, open, of capacity 10, and a
    closed Observable has none. *)
Record well_formed (h : store) (o : Observable) : Prop := {
  wf_nodup : NoDup (observers o);
  wf_open : forall r, r ∈ observers o ->
            exists c, h !! r = Some c /\ Chan.closed c = false /\ Chan.cap c = 10;
  wf_closed : closed o = true -> observers o = []
}.

(** *** The two loops over the subscribers *)

Definition shut (c : Chan.chan V) : Chan.chan V :=
  Chan.mkChan (Chan.buf c) (Chan.cap c) true.

Lemma emit_loop_spec (data : V) (rs : list ref) : forall h : store,
  NoDup rs ->
  (forall r, r ∈ rs -> exists c, h !! r = Some c /\ Chan.closed c = false) ->
  exists h', emit_loop h rs data = (h', Returned tt)
             /\ forall r, h' !! r =
                  if bool_decide (r ∈ rs)
                  then (fun c => offered c data) <$> h !! r
                  else h !! r.
Proof.
  induction rs as [|r0 rs IH]; intros h Hnd Hopen.
  - exists h. split; [reflexivity|]. intros r.
    rewrite bool_decide_eq_false_2 by apply not_elem_of_nil. reflexivity.
  - apply NoDup_cons in Hnd as [Hr0 Hnd].
    destruct (Hopen r0) as (c0 & Hc0 & Hopen0); [left|].
    cbn [emit_loop]. rewrite Hc0. unfold Chan.try_send, Chan.send. rewrite Hopen0.
    assert (Hlt : r0 < length h) by (eapply lookup_lt_Some; exact Hc0).
    destruct (length (Chan.buf c0) <? Chan.cap c0) eqn:E.
    + destruct (IH (<[r0 := Chan.mkChan (Chan.buf c0 ++ [data]) (Chan.cap c0) false]> h) Hnd)
        as (h' & Hrun & Hh').
      { intros r Hr. destruct (Hopen r) as (c & Hc & Hco); [right; exact Hr|].
        exists c. split; [|exact Hco].
        rewrite list_lookup_insert_ne; [exact Hc | intros ->; contradiction]. }
      exists h'. split; [exact Hrun|]. intros r. rewrite Hh'.
      destruct (decide (r = r0)) as [->|Hne].
      * rewrite (bool_decide_eq_false_2 _ Hr0).
        rewrite (bool_decide_eq_true_2 (r0 ∈ r0 :: rs)) by left.
        rewrite list_lookup_insert_eq by exact Hlt. rewrite Hc0. cbn.
        unfold offered. rewrite E, Hopen0. reflexivity.
      * rewrite list_lookup_insert_ne by congruence.
        destruct (decide (r ∈ rs)) as [Hin|Hnin].
        -- rewrite (bool_decide_eq_true_2 _ Hin).
           rewrite (bool_decide_eq_true_2 (r ∈ r0 :: rs)) by (right; exact Hin).
           reflexivity.
        -- rewrite (bool_decide_eq_false_2 _ Hnin).
           rewrite (bool_decide_eq_false_2 (r ∈ r0 :: rs)); [reflexivity|].
           intros Hin. apply elem_of_cons in Hin as [?|?]; contradiction.
    + destruct (IH h Hnd) as (h' & Hrun & Hh').
      { intros r Hr. apply Hopen. right. exact Hr. }
      exists h'. split; [exact Hrun|]. intros r. rewrite Hh'.
      destruct (decide (r = r0)) as [->|Hne].
      * rewrite (bool_decide_eq_false_2 _ Hr0).
        rewrite (bool_decide_eq_true_2 (r0 ∈ r0 :: rs)) by left.
        rewrite Hc0. cbn. unfold offered. rewrite E. reflexivity.
      * destruct (decide (r ∈ rs)) as [Hin|Hnin].
        -- rewrite (bool_decide_eq_true_2 _ Hin).
           rewrite (bool_decide_eq_true_2 (r ∈ r0 :: rs)) by (right; exact Hin).
           reflexivity.
        -- rewrite (bool_decide_eq_false_2 _ Hnin).
           rewrite (bool_decide_eq_false_2 (r ∈ r0 :: rs)); [reflexivity|].
           intros Hin. apply elem_of_cons in Hin as [?|?]; contradiction.
Qed.

Lemma close_loop_spec (rs : list ref) : forall h : store,
  NoDup rs ->
  (forall r, r ∈ rs -> exists c, h !! r = Some c /\ Chan.closed c = false) ->
  exists h', close_loop h rs = (h', Returned tt)
             /\ forall r, h' !! r =
                  if bool_decide (r ∈ rs) then shut <$> h !! r else h !! r.
Proof.
  induction rs as [|r0 rs IH]; intros h Hnd Hopen.
  - exists h. split; [reflexivity|]. intros r.
    rewrite bool_decide_eq_false_2 by apply not_elem_of_nil. reflexivity.
  - apply NoDup_cons in Hnd as [Hr0 Hnd].
    destruct (Hopen r0) as (c0 & Hc0 & Hopen0); [left|].
    cbn [close_loop]. rewrite Hc0. unfold Chan.close. rewrite Hopen0.
    assert (Hlt : r0 < length h) by (eapply lookup_lt_Some; exact Hc0).
    destruct (IH (<[r0 := Chan.mkChan (Chan.buf c0) (Chan.cap c0) true]> h) Hnd)
      as (h' & Hrun & Hh').
    { intros r Hr. destruct (Hopen r) as (c & Hc & Hco); [right; exact Hr|].
      exists c. split; [|exact Hco].
      rewrite list_lookup_insert_ne; [exact Hc | intros ->; contradiction]. }
    exists h'. split; [exact Hrun|]. intros r. rewrite Hh'.
    destruct (decide (r = r0)) as [->|Hne].
    + rewrite (bool_decide_eq_false_2 _ Hr0).
      rewrite (bool_decide_eq_true_2 (r0 ∈ r0 :: rs)) by left.
      rewrite list_lookup_insert_eq by exact Hlt. rewrite Hc0. reflexivity.
    + rewrite list_lookup_insert_ne by congruence.
      destruct (decide (r ∈ rs)) as [Hin|Hnin].
      * rewrite (bool_decide_eq_true_2 _ Hin).
        rewrite (bool_decide_eq_true_2 (r ∈ r0 :: rs)) by (right; exact Hin).
        reflexivity.
      * rewrite (bool_decide_eq_false_2 _ Hnin).
        rewrite (bool_decide_eq_false_2 (r ∈ r0 :: rs)); [reflexivity|].
        intros Hin. apply elem_of_cons in Hin as [?|?]; contradiction.
Qed.

Lemma well_formed_open (h : store) (o : Observable) :
  well_formed h o ->
  forall r, r ∈ observers o -> exists c, h !! r = Some c /\ Chan.closed c = false.
Proof.
  intros Hwf r Hr. destruct (wf_open h o Hwf r Hr) as (c & Hc & Hco & _). eauto.
Qed.

(** *** Every state of a run is well formed *)

Lemma apply_op_well_formed (st : store * Observable) (a : op) :
  well_formed (fst st) (snd st) ->
  well_formed (fst (apply_op st a)) (snd (apply_op st a)).
Proof.
  destruct st as [h o]. cbn [fst snd]. intros Hwf.
  pose proof (well_formed_open h o Hwf) as Hopen.
  pose proof (wf_nodup h o Hwf) as Hnd. pose proof (wf_open h o Hwf) as Hreg.
  pose proof (wf_closed h o Hwf) as Hcl. destruct a; cbn [apply_op].
  - unfold Subscribe, alloc. destruct (closed o) eqn:Eo; cbn; [exact Hwf|].
    split; cbn.
    + apply NoDup_app. split; [exact Hnd|]. split; [|apply NoDup_singleton].
      intros r Hr Hr'. apply list_elem_of_singleton in Hr'. subst r.
      destruct (Hreg _ Hr) as (c & Hc & _). apply lookup_lt_Some in Hc. lia.
    + intros r Hr. apply elem_of_app in Hr as [Hr|Hr].
      * destruct (Hreg r Hr) as (c & Hc & Hrest). exists c. split; [|exact Hrest].
        apply lookup_app_l_Some. exact Hc.
      * apply list_elem_of_singleton in Hr. subst r. exists (Chan.make 10).
        split; [|split; reflexivity].
        rewrite lookup_app_r by lia. rewrite Nat.sub_diag. reflexivity.
    + discriminate.
  - unfold Emit. destruct (closed o) eqn:Eo; cbn; [exact Hwf|].
    destruct (emit_loop_spec data (observers o) h Hnd Hopen) as (h' & -> & Hh').
    cbn. split; [exact Hnd| |exact (wf_closed h o Hwf)].
    intros r Hr. destruct (Hreg r Hr) as (c & Hc & Hco & Hcap).
    exists (offered c data). rewrite Hh', Hc, (bool_decide_eq_true_2 _ Hr).
    split; [reflexivity|]. unfold offered.
    destruct (length (Chan.buf c) <? Chan.cap c); cbn; auto.
  - unfold Close.
    destruct (close_loop_spec (observers o) h Hnd Hopen) as (h' & -> & _).
    cbn. split; cbn; [apply NoDup_nil_2 | intros r Hr; inversion Hr | reflexivity].
  - unfold Receive. destruct (h !! ch) as [c|] eqn:Hch; cbn; [|split; assumption].
    unfold Chan.recv. destruct (Chan.buf c) as [|v rest] eqn:Eb.
    + destruct (Chan.closed c); cbn; exact Hwf.
    + cbn. split; [exact Hnd| |exact (wf_closed h o Hwf)]. intros r Hr.
      destruct (Hreg r Hr) as (c1 & Hc1 & Hco & Hcap).
      destruct (decide (r = ch)) as [->|Hne].
      * rewrite list_lookup_insert_eq by (eapply lookup_lt_Some; exact Hch).
        eexists. split; [reflexivity|]. cbn. split; congruence.
      * rewrite list_lookup_insert_ne by congruence. eauto.
Qed.

Lemma after_well_formed (ops : list op) :
  well_formed (fst (after ops)) (snd (after ops)).
Proof.
  unfold after. induction ops as [|a ops IH] using rev_ind.
  - split; cbn; [apply NoDup_nil_2 | intros r Hr; inversion Hr | discriminate].
  - rewrite foldl_app. cbn [foldl]. apply apply_op_well_formed. exact IH.
Qed.

(** C4: on an open Observable, Emit returns (it has no blocking send),
    and it has offered [data] to every registered channel, each of
    capacity 10: a channel holding fewer than 10 values has [data]
    appended, a full one is left as it is, and so is every channel that is
    not registered. *)
Theorem emit_offers_to_every_subscriber (h : store) (o : Observable) (data : V) :
  well_formed h o ->
  closed o = false ->
  exists h', Emit h o data = (h', o, Returned tt)
    /\ (forall r c, r ∈ observers o -> h !! r = Some c ->
          Chan.cap c = 10
          /\ h' !! r = Some (if length (Chan.buf c) <? 10
                             then Chan.mkChan (Chan.buf c ++ [data]) 10 false
                             else c))
    /\ (forall r, r ∉ observers o -> h' !! r = h !! r).
Proof.
  intros Hwf Hopen. unfold Emit. rewrite Hopen.
  destruct (emit_loop_spec data (observers o) h (wf_nodup h o Hwf)
              (well_formed_open h o Hwf)) as (h' & -> & Hh').
  exists h'. split; [reflexivity|]. split.
  - intros r c Hr Hc. destruct (wf_open h o Hwf r Hr) as (c' & Hc' & Hco & Hcap).
    assert (c' = c) by congruence. subst c'. split; [exact Hcap|].
    rewrite Hh', Hc, (bool_decide_eq_true_2 _ Hr). cbn. unfold offered.
    rewrite Hcap, Hco. reflexivity.
  - intros r Hr. rewrite Hh', (bool_decide_eq_false_2 _ Hr). reflexivity.
Qed.

(** C6: Close returns and leaves the Observable closed with no channel
    registered; a second Close returns as well and changes nothing; and
    from then on Subscribe returns nil and registers nothing, and Emit
    returns and touches no channel. *)
Theorem close_is_idempotent_and_final (h : store) (o : Observable) :
  well_formed h o ->
  exists h1,
    Close h o = (h1, mkObservable [] true, Returned tt)
    /\ Close h1 (mkObservable [] true) = (h1, mkObservable [] true, Returned tt)
    /\ Subscribe h1 (mkObservable [] true) = (h1, mkObservable [] true, None)
    /\ (forall data, Emit h1 (mkObservable [] true) data
                     = (h1, mkObservable [] true, Returned tt))
    /\ (forall r, h1 !! r = if bool_decide (r ∈ observers o) then shut <$> h !! r
                            else h !! r).
Proof.
  intros Hwf. unfold Close at 1.
  destruct (close_loop_spec (observers o) h (wf_nodup h o Hwf)
              (well_formed_open h o Hwf)) as (h1 & -> & Hh1).
  exists h1. repeat split. exact Hh1.
Qed.

End WithValue.

(** *** A slow and a fast subscriber *)

(** Two subscribers, ten values, and the second subscriber takes one. *)
Definition two_subscribers : list (op (V := Z)) :=
  [OpSubscribe; OpSubscribe] ++ repeat (OpEmit 7%Z) 10 ++ [OpReceive 1].

(** C4 on that state: the eleventh value reaches the second subscriber only. *)
Lemma emit_offers_to_every_subscriber_witness :
  exists h',
    Emit (fst (after two_subscribers)) (snd (after two_subscribers)) 8%Z
      = (h', snd (after two_subscribers), Returned tt)
    /\ (Chan.buf <$> h' !! 0) = Some (repeat 7%Z 10)
    /\ (Chan.buf <$> h' !! 1) = Some (repeat 7%Z 9 ++ [8%Z]).
Proof.
  destruct (emit_offers_to_every_subscriber (fst (after two_subscribers))
              (snd (after two_subscribers)) 8%Z
              (after_well_formed two_subscribers) eq_refl)
    as (h' & Hemit & Hreg & _).
  exists h'. split; [exact Hemit|]. split.
  - assert (Hin : 0 ∈ observers (snd (after two_subscribers))) by (vm_compute; left).
    pose proof (Hreg 0 (Chan.mkChan (repeat 7%Z 10) 10 false) Hin eq_refl) as [_ H0].
    rewrite H0. reflexivity.
  - assert (Hin : 1 ∈ observers (snd (after two_subscribers)))
      by (vm_compute; right; left).
    pose proof (Hreg 1 (Chan.mkChan (repeat 7%Z 9) 10 false) Hin eq_refl) as [_ H1].
    rewrite H1. reflexivity.
Defined.

(** C6 on that state. *)
Lemma close_is_idempotent_and_final_witness :
  exists h1,
    Close (fst (after two_subscribers)) (snd (after two_subscribers))
      = (h1, mkObservable [] true, Returned tt)
    /\ Close h1 (mkObservable [] true) = (h1, mkObservable [] true, Returned tt)
    /\ Subscribe h1 (mkObservable [] true) = (h1, mkObservable [] true, None)
    /\ Emit h1 (mkObservable [] true) 9%Z = (h1, mkObservable [] true, Returned tt).
Proof.
  destruct (close_is_idempotent_and_final (fst (after two_subscribers))
              (snd (after two_subscribers)) (after_well_formed two_subscribers))
    as (h1 & H1 & H2 & H3 & H4 & _).
  exists h1. split; [exact H1|]. split; [exact H2|]. split; [exact H3 | exact (H4 9%Z)].
Defined.

(** *** Sequences of values, Subject, and the subscriber's loop *)

Section Streams.
Context {V : Type}.

Abbreviation ref := nat.
Abbreviation store := (list (Chan.chan V)).

(** Emit and Close on a well-formed Observable, channel by channel. *)
Lemma emit_spec (h : store) (o : Observable) (data : V) :
  well_formed h o ->
  exists h', Emit h o data = (h', o, Returned tt)
    /\ length h' = length h
    /\ forall r, h' !! r =
         if bool_decide (r ∈ observers o) && negb (closed o)
         then (fun c => offered c data) <$> h !! r
         else h !! r.
Proof.
  intros Hwf. unfold Emit. destruct (closed o) eqn:Eo.
  - exists h. repeat split. intros r. rewrite andb_false_r. reflexivity.
  - destruct (emit_loop_spec data (observers o) h (wf_nodup h o Hwf)
                (well_formed_open h o Hwf)) as (h' & -> & Hh').
    exists h'. split; [reflexivity|]. split.
    + apply Nat.le_antisymm.
      * destruct (decide (length h' <= length h)) as [|Hgt]; [assumption|].
        assert (Hsome : is_Some (h' !! length h)) by (apply lookup_lt_is_Some; lia).
        rewrite Hh' in Hsome. rewrite (lookup_ge_None_2 h (length h)) in Hsome by lia.
        destruct (bool_decide _); cbn in Hsome; destruct Hsome; discriminate.
      * destruct (decide (length h <= length h')) as [|Hgt]; [assumption|].
        assert (Hsome : is_Some (h !! length h')) by (apply lookup_lt_is_Some; lia).
        pose proof (Hh' (length h')) as Hl.
        rewrite (lookup_ge_None_2 h' (length h')) in Hl by lia.
        destruct Hsome as [c Hc]. rewrite Hc in Hl.
        destruct (bool_decide _); discriminate.
    + intros r. rewrite andb_true_r. apply Hh'.
Qed.

Lemma close_spec (h : store) (o : Observable) :
  well_formed h o ->
  exists h', Close h o = (h', mkObservable [] true, Returned tt)
    /\ forall r, h' !! r =
         if bool_decide (r ∈ observers o) then shut <$> h !! r else h !! r.
Proof.
  intros Hwf. unfold Close.
  destruct (close_loop_spec (observers o) h (wf_nodup h o Hwf)
              (well_formed_open h o Hwf)) as (h' & -> & Hh').
  exists h'. split; [reflexivity | exact Hh'].
Qed.

(** [vs] emitted one after the other. *)
Definition emit_all (h : store) (o : Observable) (vs : list V)
  : store * Observable :=
  foldl apply_op (h, o) (OpEmit <$> vs).

(** X8: when a subscriber takes nothing from its channel while the values
    [vs] are emitted, the channel ends up with what it held followed by
    the first values of [vs] that fit into its capacity of 10: the later
    ones are the ones dropped, and what is kept is in the order emitted. *)
Theorem silent_subscriber_keeps_the_oldest (vs : list V) :
  forall (h : store) (o : Observable) (r : ref) (c : Chan.chan V),
    well_formed h o ->
    closed o = false ->
    r ∈ observers o ->
    h !! r = Some c ->
    snd (emit_all h o vs) = o
    /\ fst (emit_all h o vs) !! r =
         Some (Chan.mkChan (Chan.buf c ++ take (10 - length (Chan.buf c)) vs) 10 false).
Proof.
  unfold emit_all. induction vs as [|v vs IH]; intros h o r c Hwf Hopen Hr Hc.
  - cbn. rewrite take_nil, app_nil_r. split; [reflexivity|].
    destruct (wf_open h o Hwf r Hr) as (c' & Hc' & Hco & Hcap).
    rewrite Hc. f_equal. destruct c as [b n cl]. cbn in *.
    assert (c' = Chan.mkChan b n cl) by congruence. subst c'. cbn in *. congruence.
  - cbn [fmap list_fmap foldl apply_op].
    pose proof (apply_op_well_formed (h, o) (OpEmit v) Hwf) as Hwf'.
    cbn [apply_op fst snd] in Hwf'.
    destruct (emit_spec h o v Hwf) as (h' & He & _ & Hh'). rewrite He in *.
    cbn [fst snd] in *.
    destruct (wf_open h o Hwf r Hr) as (c' & Hc' & Hco & Hcap).
    assert (c' = c) by congruence. subst c'.
    specialize (Hh' r). rewrite (bool_decide_eq_true_2 _ Hr), Hopen, Hc in Hh'.
    cbn in Hh'.
    destruct (IH h' o r (offered c v) Hwf' Hopen Hr Hh') as [Ho Hl].
    split; [exact Ho|]. rewrite Hl. f_equal. unfold offered. rewrite Hcap.
    destruct (length (Chan.buf c) <? 10) eqn:E; cbn.
    + apply Nat.ltb_lt in E. rewrite length_app. cbn.
      replace (10 - length (Chan.buf c)) with (S (10 - (length (Chan.buf c) + 1))) by lia.
      cbn. rewrite <- app_assoc. reflexivity.
    + apply Nat.ltb_ge in E.
      replace (10 - length (Chan.buf c)) with 0 by lia. reflexivity.
Qed.

(** *** What each subscriber gets, over a whole run *)

(** A run that also records what each receive has returned. *)
Definition traced_op (acc : store * Observable * list (ref * V)) (a : op)
  : store * Observable * list (ref * V) :=
  let '(h, o, log) := acc in
  match a with
  | OpReceive ch =>
      match Receive h ch with
      | Some (h', Some v) => (h', o, log ++ [(ch, v)])
      | Some (h', None) => (h', o, log)
      | None => (h, o, log)
      end
  | _ => (apply_op (h, o) a, log)
  end.

Definition emitted (ops : list (op (V := V))) : list V :=
  omap (fun a => match a with OpEmit v => Some v | _ => None end) ops.

(** The values received from channel [r], in order. *)
Definition got (r : ref) (log : list (ref * V)) : list V :=
  omap (fun p => if decide (fst p = r) then Some (snd p) else None) log.

(** What channel [r] held when the run started. *)
Definition held_before (h1 : store) (r : ref) : list V :=
  match h1 !! r with Some c => Chan.buf c | None => [] end.

(** What holds of a run started in a state with store [h0] and record
    [log0], after the values [e] have been emitted: every channel has
    passed on or still holds what it held at the start followed by some
    of [e], in order; a channel not yet made has passed on nothing new. *)
Record exact (h0 : store) (log0 : list (ref * V)) (e : list V)
    (acc : store * Observable * list (ref * V)) : Prop := {
  exact_wf : well_formed (fst (fst acc)) (snd (fst acc));
  exact_sel : forall r c, fst (fst acc) !! r = Some c ->
              exists sel, sel `sublist_of` e
                /\ got r (snd acc) ++ Chan.buf c = got r log0 ++ held_before h0 r ++ sel;
  exact_new : forall r, length (fst (fst acc)) <= r -> got r (snd acc) = got r log0;
  exact_len : length h0 <= length (fst (fst acc))
}.

Lemma got_snoc (r ch : ref) (v : V) (log : list (ref * V)) :
  got r (log ++ [(ch, v)]) = got r log ++ (if decide (ch = r) then [v] else []).
Proof.
  unfold got. rewrite omap_app. cbn. destruct (decide (ch = r)); reflexivity.
Qed.

Lemma close_keeps_length (h h' : store) (rs : list ref) :
  (forall r, h' !! r = if bool_decide (r ∈ rs) then shut <$> h !! r else h !! r) ->
  length h' = length h.
Proof.
  intros Hh'. apply Nat.le_antisymm.
  - destruct (decide (length h' <= length h)) as [|Hgt]; [assumption|].
    assert (Hsome : is_Some (h' !! length h)) by (apply lookup_lt_is_Some; lia).
    rewrite Hh' in Hsome. rewrite (lookup_ge_None_2 h (length h)) in Hsome by lia.
    destruct (bool_decide _); cbn in Hsome; destruct Hsome; discriminate.
  - destruct (decide (length h <= length h')) as [|Hgt]; [assumption|].
    assert (Hsome : is_Some (h !! length h')) by (apply lookup_lt_is_Some; lia).
    pose proof (Hh' (length h')) as Hl.
    rewrite (lookup_ge_None_2 h' (length h')) in Hl by lia.
    destruct Hsome as [c Hc']. rewrite Hc' in Hl.
    destruct (bool_decide _); discriminate.
Qed.

Lemma traced_op_exact (h0 : store) (log0 : list (ref * V)) (e : list V)
    (acc : store * Observable * list (ref * V)) (a : op) :
  exact h0 log0 e acc ->
  exact h0 log0 (e ++ match a with OpEmit v => [v] | _ => [] end) (traced_op acc a).
Proof.
  destruct acc as [[h o] log]. intros [Hwf Hsel Hnew Hlen]. cbn [fst snd] in *.
  pose proof (apply_op_well_formed (h, o) a Hwf) as Hwf'.
  destruct a as [|v| |ch]; cbn [traced_op apply_op] in *; rewrite ?app_nil_r.
  - (* Subscribe *)
    unfold Subscribe, alloc in *. destruct (closed o); cbn [fst snd] in *.
    { split; assumption. }
    split; cbn [fst snd]; [exact Hwf'| | |].
    + intros r c Hc. destruct (decide (r < length h)) as [Hlt|Hge].
      * rewrite lookup_app_l in Hc by exact Hlt. apply Hsel. exact Hc.
      * rewrite lookup_app_r in Hc by lia.
        destruct (r - length h) as [|k] eqn:Ek; [|destruct k; discriminate].
        cbn in Hc. injection Hc as <-. cbn. exists []. split; [apply sublist_nil_l|].
        rewrite Hnew by lia. unfold held_before.
        rewrite lookup_ge_None_2 by lia. reflexivity.
    + intros r Hr. rewrite length_app in Hr. cbn in Hr. apply Hnew. lia.
    + rewrite length_app. lia.
  - (* Emit *)
    destruct (emit_spec h o v Hwf) as (h' & He & Hl & Hh'). rewrite He in *.
    cbn [fst snd] in *. split; cbn [fst snd]; [exact Hwf'| | |].
    + intros r c Hc. rewrite Hh' in Hc.
      destruct (bool_decide (r ∈ observers o) && negb (closed o)).
      * destruct (h !! r) as [c0|] eqn:Hc0; [|discriminate]. cbn in Hc.
        injection Hc as <-. destruct (Hsel r c0 Hc0) as (sel & Hsub & Heq).
        unfold offered. destruct (length (Chan.buf c0) <? Chan.cap c0); cbn.
        -- exists (sel ++ [v]). split; [apply sublist_app; [exact Hsub | reflexivity]|].
           rewrite app_assoc, Heq, <- !app_assoc. reflexivity.
        -- exists sel. split; [apply sublist_inserts_r; exact Hsub | exact Heq].
      * destruct (Hsel r c Hc) as (sel & Hsub & Heq).
        exists sel. split; [apply sublist_inserts_r; exact Hsub | exact Heq].
    + intros r Hr. apply Hnew. lia.
    + lia.
  - (* Close *)
    destruct (close_spec h o Hwf) as (h' & Hc & Hh'). rewrite Hc in *.
    cbn [fst snd] in *.
    pose proof (close_keeps_length h h' (observers o) Hh') as Hl.
    split; cbn [fst snd]; [exact Hwf'| | |].
    + intros r c Hr. rewrite Hh' in Hr.
      destruct (bool_decide (r ∈ observers o)); [|apply Hsel; exact Hr].
      destruct (h !! r) as [c0|] eqn:Hc0; [|discriminate]. cbn in Hr.
      injection Hr as <-. apply (Hsel r c0 Hc0).
    + intros r Hr. apply Hnew. lia.
    + lia.
  - (* Receive *)
    unfold Receive in *. destruct (h !! ch) as [c0|] eqn:Hch; [|split; assumption].
    unfold Chan.recv in *. destruct (Chan.buf c0) as [|v rest] eqn:Eb.
    { destruct (Chan.closed c0); split; assumption. }
    assert (Hlt : ch < length h) by (eapply lookup_lt_Some; exact Hch).
    cbn [fst snd] in *. split; cbn [fst snd]; [exact Hwf'| | |].
    + intros r c Hc. rewrite got_snoc. destruct (decide (ch = r)) as [->|Hne].
      * rewrite list_lookup_insert_eq in Hc by exact Hlt. injection Hc as <-. cbn.
        rewrite <- app_assoc. cbn. destruct (Hsel r c0 Hch) as (sel & Hsub & Heq).
        rewrite Eb in Heq. exists sel. split; [exact Hsub | exact Heq].
      * rewrite list_lookup_insert_ne in Hc by exact Hne. rewrite app_nil_r.
        apply Hsel. exact Hc.
    + intros r Hr. rewrite length_insert in Hr. rewrite got_snoc.
      rewrite decide_False by lia. rewrite app_nil_r. apply Hnew. exact Hr.
    + rewrite length_insert. exact Hlen.
Qed.

Lemma traced_exact (ops : list op) :
  forall (h0 : store) (o0 : Observable) (log0 : list (ref * V)),
    well_formed h0 o0 ->
    exact h0 log0 (emitted ops) (foldl traced_op (h0, o0, log0) ops).
Proof.
  intros h0 o0 log0 Hwf. induction ops as [|a ops IH] using rev_ind.
  - split; cbn [fst snd foldl]; [exact Hwf| | |].
    + intros r c Hc. exists []. split; [reflexivity|].
      unfold held_before. rewrite Hc, app_nil_r. reflexivity.
    + reflexivity.
    + reflexivity.
  - rewrite foldl_app. cbn [foldl]. unfold emitted. rewrite omap_app. cbn.
    fold (emitted ops).
    replace (match a with OpEmit v => Some v | _ => None end
             ≫= fun y => Some y) with (match a with OpEmit v => Some v | _ => None end)
      by (destruct a; reflexivity).
    pose proof (traced_op_exact h0 log0 (emitted ops) _ a IH) as Hl.
    destruct a; cbn in *; rewrite ?app_nil_r in *; exact Hl.
Qed.

(** X9: run the operations [ops1] and then [ops2] on a well-formed
    Observable. For every channel, what its subscriber has received
    followed by what is still queued is exactly what the channel held at
    the start followed by a selection of the values emitted during the
    run, in the order emitted and without repetition: nothing that
    entered the channel is lost, reordered or doubled. And for a channel
    that did not exist yet after [ops1], the whole of it is a selection
    of the values emitted during [ops2]: no earlier value is replayed to
    a later subscriber. *)
Theorem subscribers_get_a_subsequence (h1 : store) (o1 : Observable)
    (ops1 ops2 : list op) (r : ref) (c : Chan.chan V) :
  well_formed h1 o1 ->
  fst (fst (foldl traced_op (foldl traced_op (h1, o1, []) ops1) ops2)) !! r = Some c ->
  (exists sel,
     sel `sublist_of` emitted (ops1 ++ ops2)
     /\ got r (snd (foldl traced_op (foldl traced_op (h1, o1, []) ops1) ops2)) ++ Chan.buf c
        = held_before h1 r ++ sel)
  /\ (length (fst (fst (foldl traced_op (h1, o1, []) ops1))) <= r ->
      got r (snd (foldl traced_op (foldl traced_op (h1, o1, []) ops1) ops2)) ++ Chan.buf c
        `sublist_of` emitted ops2).
Proof.
  intros Hwf Hc. split.
  - rewrite <- foldl_app in *.
    destruct (exact_sel _ _ _ _ (traced_exact (ops1 ++ ops2) h1 o1 [] Hwf) r c Hc)
      as (sel & Hsub & Heq).
    exists sel. split; [exact Hsub | exact Heq].
  - intros Hr.
    pose proof (traced_exact ops1 h1 o1 [] Hwf) as Hmid.
    destruct (foldl traced_op (h1, o1, []) ops1) as [[h2 o2] log2] eqn:Emid.
    cbn [fst snd] in *.
    destruct (exact_sel _ _ _ _ (traced_exact ops2 h2 o2 log2 (exact_wf _ _ _ _ Hmid)) r c Hc)
      as (sel & Hsub & Heq).
    pose proof (exact_new _ _ _ _ Hmid r) as Hn. cbn [fst snd] in Hn.
    rewrite Heq, (Hn Hr). unfold held_before.
    rewrite (lookup_ge_None_2 h2 r) by exact Hr. exact Hsub.
Qed.

(** *** Subject *)

(** The dynamic values include strings: [of_string] is the conversion to
    [interface{}]. *)
Variable of_string : string -> V.

(** Next (README.md:1416-1418). *)
Definition Next (h : store) (o : Observable) (value : V)
  : store * Observable * outcome unit :=
  Emit h o value.

(** Error (README.md:1421-1423): [s.Emit(fmt.Sprintf("ERROR: %v", err))],
    with [text] what [err.Error()] returns. *)
Definition Error (h : store) (o : Observable) (text : string)
  : store * Observable * outcome unit :=
  Emit h o (of_string (String.append "ERROR: " text)).

(** Complete (README.md:1426-1429): [s.Emit("COMPLETE")], then [s.Close()]. *)
Definition Complete (h : store) (o : Observable)
  : store * Observable * outcome unit :=
  match Emit h o (of_string "COMPLETE") with
  | (h1, o1, Returned _) => Close h1 o1
  | (h1, o1, Panicked msg) => (h1, o1, Panicked msg)
  end.

(** X10: Complete returns and leaves the Subject closed with no channel
    registered; every channel that was registered is closed, with the
    marker "COMPLETE" queued behind what it held if it held fewer than 10
    values, and as it was if it was full (that subscriber sees the closure
    but not the marker); after it, Complete again, Next and Error
    return and change nothing. *)
Theorem complete_marks_then_closes (h : store) (o : Observable) :
  well_formed h o ->
  closed o = false ->
  exists h2,
    Complete h o = (h2, mkObservable [] true, Returned tt)
    /\ (forall r c, r ∈ observers o -> h !! r = Some c ->
          h2 !! r = Some (Chan.mkChan
                            (if length (Chan.buf c) <? 10
                             then Chan.buf c ++ [of_string "COMPLETE"]
                             else Chan.buf c) 10 true))
    /\ (forall r, r ∉ observers o -> h2 !! r = h !! r)
    /\ Complete h2 (mkObservable [] true) = (h2, mkObservable [] true, Returned tt)
    /\ (forall v, Next h2 (mkObservable [] true) v = (h2, mkObservable [] true, Returned tt))
    /\ (forall text, Error h2 (mkObservable [] true) text
                     = (h2, mkObservable [] true, Returned tt)).
Proof.
  intros Hwf Hopen. unfold Complete at 1.
  pose proof (apply_op_well_formed (h, o) (OpEmit (of_string "COMPLETE")) Hwf) as Hwf1.
  cbn [apply_op fst snd] in Hwf1.
  destruct (emit_spec h o (of_string "COMPLETE") Hwf) as (h1 & He & _ & Hh1).
  rewrite He in *. cbn [fst snd] in Hwf1.
  destruct (close_spec h1 o Hwf1) as (h2 & Hc & Hh2). rewrite Hc.
  exists h2. split; [reflexivity|]. split; [|split; [|repeat split]].
  - intros r c Hr Hlook. destruct (wf_open h o Hwf r Hr) as (c' & Hc' & Hco & Hcap).
    assert (c' = c) by congruence. subst c'.
    rewrite Hh2, (bool_decide_eq_true_2 _ Hr), Hh1, (bool_decide_eq_true_2 _ Hr), Hopen, Hlook.
    cbn [andb negb fmap option_fmap option_map]. unfold shut, offered. rewrite Hcap.
    destruct (length (Chan.buf c) <? 10); cbn; rewrite ?Hcap; reflexivity.
  - intros r Hr.
    rewrite Hh2, (bool_decide_eq_false_2 _ Hr), Hh1, (bool_decide_eq_false_2 _ Hr).
    reflexivity.
Qed.

(** *** The subscriber's loop *)

Inductive loop_end : Type :=
  | Finished
  | Parked
  | Running.

(** [for data := range ch] run for at most [fuel] receives: the values
    seen, and whether the loop has ended (channel closed and empty), is
    parked on an open empty channel or on a nil one, or is still going. *)
Fixpoint range_loop (fuel : nat) (h : store) (ch : option ref) (seen : list V)
  : store * list V * loop_end :=
  match fuel with
  | 0 => (h, seen, Running)
  | S fuel' =>
      match ch with
      | None => (h, seen, Parked)
      | Some r =>
          match Receive h r with
          | Some (h', Some v) => range_loop fuel' h' ch (seen ++ [v])
          | Some (h', None) => (h', seen, Finished)
          | None => (h, seen, Parked)
          end
      end
  end.

Lemma range_loop_drains (vs : list V) :
  forall (h : store) (r : ref) (n : nat) (cl : bool) (seen : list V) (fuel : nat),
    h !! r = Some (Chan.mkChan vs n cl) ->
    length vs < fuel ->
    range_loop fuel h (Some r) seen =
      (<[r := Chan.mkChan [] n cl]> h, seen ++ vs, if cl then Finished else Parked).
Proof.
  induction vs as [|v vs IH]; intros h r n cl seen fuel Hr Hfuel.
  - destruct fuel as [|fuel]; [cbn in Hfuel; lia|].
    cbn [range_loop]. unfold Receive. rewrite Hr. unfold Chan.recv. cbn.
    rewrite app_nil_r. rewrite (list_insert_id h r _ Hr).
    destruct cl; reflexivity.
  - destruct fuel as [|fuel]; [cbn in Hfuel; lia|].
    cbn [range_loop]. unfold Receive. rewrite Hr. unfold Chan.recv. cbn.
    assert (Hlt : r < length h) by (eapply lookup_lt_Some; exact Hr).
    rewrite (IH _ r n cl (seen ++ [v]) fuel).
    + rewrite list_insert_insert_eq, <- app_assoc. reflexivity.
    + apply list_lookup_insert_eq. exact Hlt.
    + cbn in Hfuel. lia.
Qed.

(** X11: after Close, the loop of every subscriber ends, having seen
    exactly the values that were queued on its channel, in order; before
    Close it parks after those values; and the loop of a subscriber that
    called Subscribe after Close parks at once and for ever, since it
    ranges over the nil channel that Subscribe returned. *)
Theorem range_loop_ends_after_close (h : store) (o : Observable)
    (r : ref) (c : Chan.chan V) (fuel : nat) :
  well_formed h o ->
  r ∈ observers o ->
  h !! r = Some c ->
  length (Chan.buf c) < fuel ->
  snd (range_loop fuel h (Some r) []) = Parked
  /\ snd (fst (range_loop fuel h (Some r) [])) = Chan.buf c
  /\ (let h1 := fst (fst (Close h o)) in
      let o1 := snd (fst (Close h o)) in
      range_loop fuel h1 (Some r) [] =
        (<[r := Chan.mkChan [] (Chan.cap c) true]> h1, Chan.buf c, Finished)
      /\ snd (Subscribe h1 o1) = None
      /\ range_loop fuel (fst (fst (Subscribe h1 o1))) (snd (Subscribe h1 o1)) []
         = (h1, [], Parked)).
Proof.
  intros Hwf Hr Hc Hfuel.
  destruct (wf_open h o Hwf r Hr) as (c' & Hc' & Hco & Hcap).
  assert (c' = c) by congruence. subst c'.
  assert (Hrun : range_loop fuel h (Some r) [] =
                 (<[r := Chan.mkChan [] (Chan.cap c) false]> h, Chan.buf c, Parked)).
  { rewrite (range_loop_drains (Chan.buf c) h r (Chan.cap c) false [] fuel).
    - reflexivity.
    - rewrite Hc. destruct c; cbn in *. congruence.
    - exact Hfuel. }
  rewrite Hrun. split; [reflexivity|]. split; [reflexivity|].
  destruct (close_spec h o Hwf) as (h1 & Hcl & Hh1). rewrite Hcl. cbn [fst snd].
  split; [|split].
  - rewrite (range_loop_drains (Chan.buf c) h1 r (Chan.cap c) true [] fuel).
    + reflexivity.
    + rewrite Hh1, (bool_decide_eq_true_2 _ Hr), Hc. reflexivity.
    + exact Hfuel.
  - reflexivity.
  - destruct fuel; [lia | reflexivity].
Qed.

End Streams.

(** X8 on two subscribers, twelve values and no receive: each keeps the
    first ten. *)
Lemma silent_subscriber_keeps_the_oldest_witness :
  fst (emit_all (fst (after (V := Z) [OpSubscribe; OpSubscribe]))
                (snd (after (V := Z) [OpSubscribe; OpSubscribe]))
                [1; 2; 3; 4; 5; 6; 7; 8; 9; 10; 11; 12]%Z) !! 1
  = Some (Chan.mkChan [1; 2; 3; 4; 5; 6; 7; 8; 9; 10]%Z 10 false).
Proof.
  assert (Hin : 1 ∈ observers (snd (after (V := Z) [OpSubscribe; OpSubscribe])))
    by (vm_compute; right; left).
  exact (proj2 (silent_subscriber_keeps_the_oldest
                  [1; 2; 3; 4; 5; 6; 7; 8; 9; 10; 11; 12]%Z _ _ 1 (Chan.make 10)
                  (after_well_formed [OpSubscribe; OpSubscribe]) eq_refl Hin eq_refl)).
Defined.

(** A first value emitted before the second subscriber exists; then the
    second Subscribe and ten more values than the first subscriber, who
    takes one, can hold. *)
Definition early : list (op (V := Z)) := [OpSubscribe; OpEmit 0%Z].

Definition late_subscriber : list (op (V := Z)) :=
  [OpSubscribe] ++ (OpEmit <$> [1; 2; 3; 4; 5; 6; 7; 8; 9; 10]%Z)
  ++ [OpReceive 0; OpEmit 11%Z].

(** X9 on that run, for the second subscriber: the 0 is not replayed. *)
Lemma subscribers_get_a_subsequence_witness :
  exists c,
    fst (fst (foldl traced_op (foldl traced_op ([], NewObservable, []) early)
                late_subscriber)) !! 1 = Some c
    /\ got 1 (snd (foldl traced_op (foldl traced_op ([], NewObservable, []) early)
                     late_subscriber)) ++ Chan.buf c
         `sublist_of` [1; 2; 3; 4; 5; 6; 7; 8; 9; 10; 11]%Z.
Proof.
  eexists. split; [reflexivity|].
  exact (proj2 (subscribers_get_a_subsequence [] NewObservable early late_subscriber 1 _
                  (after_well_formed []) eq_refl) ltac:(cbn; lia)).
Defined.

(** X10 and X11 on the two subscribers of which the first one is full. *)
Lemma complete_marks_then_closes_witness :
  exists h2,
    Complete (fun s => Z.of_nat (String.length s))
      (fst (after two_subscribers)) (snd (after two_subscribers))
      = (h2, mkObservable [] true, Returned tt)
    /\ (Chan.buf <$> h2 !! 0) = Some (repeat 7%Z 10)
    /\ (Chan.buf <$> h2 !! 1) = Some (repeat 7%Z 9 ++ [8%Z]).
Proof.
  destruct (complete_marks_then_closes (fun s => Z.of_nat (String.length s))
              (fst (after two_subscribers)) (snd (after two_subscribers))
              (after_well_formed two_subscribers) eq_refl)
    as (h2 & Hc & Hreg & _).
  exists h2. split; [exact Hc|]. split.
  - assert (Hin : 0 ∈ observers (snd (after two_subscribers))) by (vm_compute; left).
    rewrite (Hreg 0 (Chan.mkChan (repeat 7%Z 10) 10 false) Hin eq_refl). reflexivity.
  - assert (Hin : 1 ∈ observers (snd (after two_subscribers)))
      by (vm_compute; right; left).
    rewrite (Hreg 1 (Chan.mkChan (repeat 7%Z 9) 10 false) Hin eq_refl). reflexivity.
Defined.

Lemma range_loop_ends_after_close_witness :
  range_loop 11 (fst (fst (Close (fst (after two_subscribers))
                                 (snd (after two_subscribers))))) (Some 1) []
  = (<[1 := Chan.mkChan [] 10 true]>
       (fst (fst (Close (fst (after two_subscribers)) (snd (after two_subscribers))))),
     repeat 7%Z 9, Finished).
Proof.
  assert (Hin : 1 ∈ observers (snd (after two_subscribers)))
    by (vm_compute; right; left).
  exact (proj1 (proj2 (proj2 (range_loop_ends_after_close
           (fst (after two_subscribers)) (snd (after two_subscribers)) 1
           (Chan.mkChan (repeat 7%Z 9) 10 false) 11
           (after_well_formed two_subscribers) Hin eq_refl ltac:(cbn; lia))))).
Defined.

End Observable.

(** ** generate and square (the fan-out fan-in example) *)
Module Pipeline.

(** Go's [int] on a 64-bit target: arithmetic is modulo 2^64, signed. *)
Definition wrap64 (z : Z) : Z :=
  ((z + 2 ^ 63) mod 2 ^ 64 - 2 ^ 63)%Z.

(** The function square applies: [n * n]. *)
Definition square_fn (n : Z) : Z := wrap64 (n * n).

Section Transform.
(** The stage between input and output, for any function in place of
    square's [n * n]. *)
Variable fn : Z -> Z.

(** generate's goroutine (README.md:2173-2182): in its loop with [rest]
    still to send, or returned (its deferred [close(out)] done). *)
Inductive gen_pc : Type :=
  | GenLoop (rest : list Z)
  | GenDone.

(** The stage's goroutine (square, README.md:2184-2193): at the receive
    of its [range] loop, at the send of [fn n], or returned (its deferred
    [close(out)] done). *)
Inductive stage_pc : Type :=
  | StRecv
  | StSend (n : Z)
  | StDone.

(** Both channels are unbuffered: a value passes when sender and receiver
    meet, so a channel's state is its closed flag. [mid_log] records what
    has passed from generate to the stage, [collected] what the consumer's
    [range] loop has received. *)
Record state : Type := mkState {
  gen : gen_pc;
  mid_closed : bool;
  mid_log : list Z;
  stage : stage_pc;
  out_closed : bool;
  collected : list Z;
  consumer_done : bool
}.

Definition init (nums : list Z) : state :=
  mkState (GenLoop nums) false [] StRecv false [] false.

Inductive label : Type :=
  | LPass
  | LGenClose
  | LStageEnd
  | LCollect
  | LConsumerEnd.

Definition step (s : state) (l : label) : option state :=
  match l with
  | LPass =>
      (* [out <- n] of generate meets [n := range in] of the stage *)
      match gen s, stage s with
      | GenLoop (n :: rest), StRecv =>
          Some (mkState (GenLoop rest) (mid_closed s) (mid_log s ++ [n]) (StSend n)
                  (out_closed s) (collected s) (consumer_done s))
      | _, _ => None
      end
  | LGenClose =>
      (* generate's loop is over: deferred [close(out)] *)
      match gen s with
      | GenLoop [] =>
          Some (mkState GenDone true (mid_log s) (stage s)
                  (out_closed s) (collected s) (consumer_done s))
      | _ => None
      end
  | LStageEnd =>
      (* the stage's [range] sees its input closed: deferred [close(out)] *)
      match stage s with
      | StRecv =>
          if mid_closed s
          then Some (mkState (gen s) (mid_closed s) (mid_log s) StDone
                       true (collected s) (consumer_done s))
          else None
      | _ => None
      end
  | LCollect =>
      (* [out <- fn n] of the stage meets the consumer's [range] *)
      match stage s with
      | StSend n =>
          if consumer_done s || out_closed s then None
          else Some (mkState (gen s) (mid_closed s) (mid_log s) StRecv
                       (out_closed s) (collected s ++ [fn n]) (consumer_done s))
      | _ => None
      end
  | LConsumerEnd =>
      (* the consumer's [range] sees the output closed *)
      if out_closed s && negb (consumer_done s)
      then Some (mkState (gen s) (mid_closed s) (mid_log s) (stage s)
                   (out_closed s) (collected s) true)
      else None
  end.

Definition rest_of (s : state) : list Z :=
  match gen s with GenLoop rest => rest | GenDone => [] end.

Definition held (s : state) : list Z :=
  match stage s with StSend n => [n] | _ => [] end.

Definition measure (s : state) : nat :=
  2 * length (rest_of s)
  + match gen s with GenLoop _ => 1 | GenDone => 0 end
  + match stage s with StRecv => 1 | StSend _ => 2 | StDone => 0 end
  + (if consumer_done s then 0 else 1).

Record inv (nums : list Z) (s : state) : Prop := {
  inv_generate : mid_log s ++ rest_of s = nums;
  inv_transform : collected s ++ map fn (held s) = map fn (mid_log s);
  inv_mid : mid_closed s = match gen s with GenDone => true | GenLoop _ => false end;
  inv_out : out_closed s = match stage s with StDone => true | _ => false end;
  inv_stage : stage s = StDone -> gen s = GenDone;
  inv_consumer : consumer_done s = true -> out_closed s = true
}.

Ltac step_cases Hstep :=
  unfold step in Hstep; cbn in Hstep;
  repeat (case_match; try discriminate; cbn in * );
  repeat match goal with
         | Hb : (_ || _) = false |- _ => apply orb_false_elim in Hb; destruct Hb
         | Hb : (_ && _) = true |- _ => apply andb_prop in Hb; destruct Hb
         | Hb : negb _ = true |- _ => apply negb_true_iff in Hb
         end;
  simplify_eq.

Lemma pipeline_init_inv (nums : list Z) : inv nums (init nums).
Proof. split; cbn; auto; discriminate. Qed.

Lemma pipeline_step_inv (nums : list Z) (s : state) (l : label) (s' : state) :
  inv nums s -> step s l = Some s' -> inv nums s'.
Proof.
  intros [Hg Ht Hm Ho Hs Hc] Hstep. unfold rest_of, held in *.
  destruct s as [g mc ml st oc col cd]. cbn in *.
  destruct l; step_cases Hstep; split; unfold rest_of, held; cbn in *;
    rewrite ?app_nil_r in *; auto; try discriminate; try congruence.
  - rewrite <- app_assoc. reflexivity.
  - rewrite map_app. cbn. congruence.
Qed.

Lemma pipeline_step_decreases (s : state) (l : label) (s' : state) :
  step s l = Some s' -> measure s' < measure s.
Proof.
  intros Hstep. destruct s as [g mc ml st oc col cd].
  destruct l; step_cases Hstep; unfold measure, rest_of; cbn in *;
    repeat case_match; cbn in *; simplify_eq; lia.
Qed.

Lemma pipeline_progress (nums : list Z) (s : state) :
  inv nums s -> consumer_done s = false -> exists l s', step s l = Some s'.
Proof.
  intros [Hg Ht Hm Ho Hs Hc] Hcd. destruct s as [g mc ml st oc col cd]. cbn in *.
  subst cd. destruct st as [|n|].
  - destruct g as [[|n rest]|].
    + exists LGenClose. eexists. reflexivity.
    + exists LPass. eexists. reflexivity.
    + exists LStageEnd. subst mc. eexists. reflexivity.
  - exists LCollect. subst oc. eexists. reflexivity.
  - exists LConsumerEnd. subst oc. eexists. reflexivity.
Qed.

Lemma pipeline_closed_means_all (nums : list Z) (s : state) :
  inv nums s -> out_closed s = true ->
  collected s = map fn nums /\ mid_closed s = true /\ mid_log s = nums.
Proof.
  intros [Hg Ht Hm Ho Hs Hc] Hoc. destruct s as [g mc ml st oc col cd].
  unfold rest_of, held in *. cbn in *. subst oc.
  destruct st; try discriminate. rewrite (Hs eq_refl) in *.
  rewrite app_nil_r in *. subst. auto.
Qed.

End Transform.

(** C8: for every function [fn] and all values [nums], in every run of
    generate feeding the stage feeding a consumer: what has passed from
    generate is a prefix of [nums], and generate's channel is closed only
    once all of [nums] has passed; what the consumer has collected is [fn]
    of a prefix of what has passed; the output is closed only when all of
    [map fn nums] has been collected; no run is longer than
    [2 * length nums + 3] steps and every unfinished run can go on, so
    the runs get to the closure of the output. With square's function
    and 1, 2, 3 the consumer has then collected 1, 4, 9. *)
Theorem generate_then_transform_in_order :
  (forall (fn : Z -> Z) (nums : list Z) (ls : list label) (s : state),
     Sched.run (step fn) (init nums) ls = Some s ->
     (exists rest, mid_log s ++ rest = nums
                   /\ (mid_closed s = true -> rest = []))
     /\ (exists n, collected s ++ map fn (held s) = map fn (mid_log s)
                   /\ mid_log s = take n nums)
     /\ (out_closed s = true -> collected s = map fn nums /\ mid_closed s = true)
     /\ (consumer_done s = true -> out_closed s = true)
     /\ length ls <= 2 * length nums + 3
     /\ (consumer_done s = false -> exists l s', step fn s l = Some s'))
  /\ (forall (fn : Z -> Z) (nums : list Z),
        exists ls s, Sched.run (step fn) (init nums) ls = Some s
                     /\ consumer_done s = true /\ collected s = map fn nums)
  /\ (forall ls s,
        Sched.run (step square_fn) (init [1; 2; 3]%Z) ls = Some s ->
        out_closed s = true -> collected s = [1; 4; 9]%Z).
Proof.
  split; [|split].
  - intros fn nums ls s Hrun.
    pose proof (Sched.run_inv (step fn) (inv fn nums) (pipeline_step_inv fn nums)
                  ls _ _ (pipeline_init_inv fn nums) Hrun) as Hinv.
    pose proof (Sched.run_bounded (step fn) measure (pipeline_step_decreases fn) ls _ _ Hrun)
      as Hlen.
    split; [|split; [|split; [|split; [|split]]]].
    + exists (rest_of s). split; [apply (inv_generate fn nums s Hinv)|].
      intros Hmc. pose proof (inv_mid fn nums s Hinv) as Hm. unfold rest_of.
      destruct (gen s); [congruence | reflexivity].
    + exists (length (mid_log s)). split; [apply (inv_transform fn nums s Hinv)|].
      rewrite <- (inv_generate fn nums s Hinv). rewrite take_app_length. reflexivity.
    + intros Hoc. destruct (pipeline_closed_means_all fn nums s Hinv Hoc) as (? & ? & ?). auto.
    + apply (inv_consumer fn nums s Hinv).
    + unfold measure in Hlen at 2. cbn in Hlen. lia.
    + apply (pipeline_progress fn nums s Hinv).
  - intros fn nums.
    destruct (Sched.can_finish (step fn) measure consumer_done (inv fn nums)
                (pipeline_step_decreases fn) (pipeline_step_inv fn nums) (pipeline_progress fn nums)
                (init nums) (pipeline_init_inv fn nums)) as (ls & s & Hrun & Hfin).
    exists ls, s. split; [exact Hrun|]. split; [exact Hfin|].
    pose proof (Sched.run_inv (step fn) (inv fn nums) (pipeline_step_inv fn nums)
                  ls _ _ (pipeline_init_inv fn nums) Hrun) as Hinv.
    apply (pipeline_closed_means_all fn nums s Hinv). apply (inv_consumer fn nums s Hinv Hfin).
  - intros ls s Hrun Hoc.
    pose proof (Sched.run_inv (step square_fn) (inv square_fn [1; 2; 3]%Z)
                  (pipeline_step_inv square_fn _) ls _ _ (pipeline_init_inv square_fn _) Hrun) as Hinv.
    apply (pipeline_closed_means_all square_fn _ s Hinv Hoc).
Qed.

(** One schedule of generate(1, 2, 3) feeding square. *)
Definition one_two_three : list label :=
  [LPass; LCollect; LPass; LCollect; LPass; LGenClose; LCollect; LStageEnd;
   LConsumerEnd].

(** C8 on that schedule. *)
Lemma generate_then_transform_in_order_witness :
  match Sched.run (step square_fn) (init [1; 2; 3]%Z) one_two_three with
  | Some s => out_closed s = true /\ collected s = [1; 4; 9]%Z
  | None => False
  end.
Proof.
  destruct (Sched.run (step square_fn) (init [1; 2; 3]%Z) one_two_three)
    as [s|] eqn:E; [|vm_compute in E; discriminate].
  assert (Hoc : out_closed s = true).
  { vm_compute in E. injection E as <-. reflexivity. }
  split; [exact Hoc|].
  exact (proj2 (proj2 generate_then_transform_in_order) one_two_three s E Hoc).
Defined.

End Pipeline.

(** ** merge (the fan-out fan-in example) *)
Module Merge.

(** A goroutine running [output(c)]: at the receive of its [range] loop,
    at [out <- n], or returned (its deferred [wg.Done()] done). *)
Inductive fwd_pc : Type :=
  | FRecv
  | FSend (n : Z)
  | FDone.

(** An input channel together with the goroutine that forwards it:
    [pending] are the values its producer has still to send on it before
    closing it. The inputs are distinct channels read by merge alone. *)
Record forwarder : Type := mkForwarder {
  pending : list Z;
  in_closed : bool;
  pc : fwd_pc
}.

(** [out_log] records what has been received from [out], each value with
    the index of the goroutine that sent it. *)
Record state : Type := mkState {
  fwds : list forwarder;
  wg : nat;
  out_closed : bool;
  out_log : list (nat * Z)
}.

(** merge (README.md:2195-2217): [wg.Add(len(cs))], one [go output(c)]
    per channel, and the goroutine that waits and closes. *)
Definition merge (streams : list (list Z)) : state :=
  mkState (map (fun xs => mkForwarder xs false FRecv) streams) (length streams) false [].

Inductive label : Type :=
  | LProducerClose (i : nat)
  | LRecvIn (i : nat)
  | LInputEnd (i : nat)
  | LDeliver (i : nat)
  | LCloseOut.

Definition set_fwd (s : state) (i : nat) (f : forwarder) : state :=
  mkState (<[i := f]> (fwds s)) (wg s) (out_closed s) (out_log s).

Definition step (s : state) (l : label) : option state :=
  match l with
  | LProducerClose i =>
      (* the producer of input [i] has sent everything and closes it *)
      match fwds s !! i with
      | Some (mkForwarder [] false p) => Some (set_fwd s i (mkForwarder [] true p))
      | _ => None
      end
  | LRecvIn i =>
      (* [n := range c] receives the next value *)
      match fwds s !! i with
      | Some (mkForwarder (n :: rest) false FRecv) =>
          Some (set_fwd s i (mkForwarder rest false (FSend n)))
      | _ => None
      end
  | LInputEnd i =>
      (* [range c] sees the input closed: return, deferred [wg.Done()] *)
      match fwds s !! i with
      | Some (mkForwarder [] true FRecv) =>
          Some (mkState (<[i := mkForwarder [] true FDone]> (fwds s)) (pred (wg s))
                  (out_closed s) (out_log s))
      | _ => None
      end
  | LDeliver i =>
      (* [out <- n] meets the consumer; on a closed [out] it would panic *)
      match fwds s !! i with
      | Some (mkForwarder xs c (FSend n)) =>
          if out_closed s then None
          else Some (mkState (<[i := mkForwarder xs c FRecv]> (fwds s)) (wg s)
                       (out_closed s) (out_log s ++ [(i, n)]))
      | _ => None
      end
  | LCloseOut =>
      (* [wg.Wait()] returns on a zero counter, then [close(out)] *)
      match wg s with
      | 0 => if out_closed s then None
             else Some (mkState (fwds s) (wg s) true (out_log s))
      | _ => None
      end
  end.

(** The values received from [out]. *)
Definition received (s : state) : list Z := map snd (out_log s).

(** The values goroutine [i] has put on [out], in order. *)
Definition from (i : nat) (log : list (nat * Z)) : list Z :=
  omap (fun p => if decide (fst p = i) then Some (snd p) else None) log.

Definition in_flight (f : forwarder) : list Z :=
  match pc f with FSend n => [n] | _ => [] end ++ pending f.

Definition alive (f : forwarder) : nat :=
  match pc f with FDone => 0 | _ => 1 end.

Definition weight (f : forwarder) : nat :=
  2 * length (pending f)
  + (if in_closed f then 0 else 1)
  + match pc f with FRecv => 1 | FSend _ => 2 | FDone => 0 end.

Definition measure (s : state) : nat :=
  sum_list_with weight (fwds s) + (if out_closed s then 0 else 1).

Definition total (streams : list (list Z)) : nat :=
  sum_list_with length streams.

(** A forwarder on its own: a closed input has nothing pending, and a
    returned goroutine has seen its input closed. *)
Definition fwd_ok (f : forwarder) : Prop :=
  (in_closed f = true -> pending f = [])
  /\ (pc f = FDone -> in_closed f = true).

Record inv (streams : list (list Z)) (s : state) : Prop := {
  inv_each : Forall fwd_ok (fwds s);
  inv_order : forall i f, fwds s !! i = Some f ->
              exists xs, streams !! i = Some xs /\ from i (out_log s) ++ in_flight f = xs;
  inv_count : length (out_log s) + sum_list_with (fun f => length (in_flight f)) (fwds s)
              = total streams;
  inv_wg : wg s = sum_list_with alive (fwds s);
  inv_out : out_closed s = true -> wg s = 0;
  inv_len : length (fwds s) = length streams
}.

Lemma sum_insert (g : forwarder -> nat) (l : list forwarder) (i : nat) (f f' : forwarder) :
  l !! i = Some f ->
  sum_list_with g (<[i := f']> l) + g f = sum_list_with g l + g f'.
Proof.
  intros Hi. destruct (insert_middle l i f f' Hi) as (l1 & l2 & -> & ->).
  rewrite !sum_list_with_app. cbn. lia.
Qed.

Lemma from_snoc (i j : nat) (n : Z) (log : list (nat * Z)) :
  from i (log ++ [(j, n)]) = from i log ++ (if decide (j = i) then [n] else []).
Proof.
  unfold from. rewrite omap_app. cbn. destruct (decide (j = i)); reflexivity.
Qed.

Lemma merge_inv (streams : list (list Z)) : inv streams (merge streams).
Proof.
  split; cbn.
  - apply Forall_fmap, Forall_forall. intros xs _. split; cbn; discriminate.
  - intros i f Hf. rewrite list_lookup_fmap in Hf.
    destruct (streams !! i) as [xs|]; [|discriminate]. cbn in Hf.
    injection Hf as <-. exists xs. split; reflexivity.
  - unfold total. induction streams as [|xs streams IH]; [reflexivity|].
    cbn [map sum_list_with]. rewrite IH. reflexivity.
  - induction streams as [|xs streams IH]; [reflexivity|].
    cbn [map sum_list_with length]. rewrite <- IH. reflexivity.
  - discriminate.
  - apply length_map.
Qed.

(** What a step of goroutine [i] does to the list of forwarders. *)
Lemma merge_step_shape (s : state) (l : label) (s' : state) :
  step s l = Some s' ->
  (l = LCloseOut /\ wg s = 0 /\ out_closed s = false
   /\ s' = mkState (fwds s) (wg s) true (out_log s))
  \/ (exists i f f',
        fwds s !! i = Some f /\ fwds s' = <[i := f']> (fwds s)
        /\ out_closed s' = out_closed s
        /\ ((exists p, l = LProducerClose i /\ f = mkForwarder [] false p
                       /\ f' = mkForwarder [] true p
                       /\ wg s' = wg s /\ out_log s' = out_log s)
            \/ (exists n rest, l = LRecvIn i /\ f = mkForwarder (n :: rest) false FRecv
                               /\ f' = mkForwarder rest false (FSend n)
                               /\ wg s' = wg s /\ out_log s' = out_log s)
            \/ (l = LInputEnd i /\ f = mkForwarder [] true FRecv
                /\ f' = mkForwarder [] true FDone
                /\ wg s' = pred (wg s) /\ out_log s' = out_log s)
            \/ (exists n xs c, l = LDeliver i /\ f = mkForwarder xs c (FSend n)
                               /\ f' = mkForwarder xs c FRecv
                               /\ out_closed s = false
                               /\ wg s' = wg s /\ out_log s' = out_log s ++ [(i, n)]))).
Proof.
  intros Hstep. destruct l; cbn in Hstep.
  1-4: right; destruct (fwds s !! i) as [[xs c p]|] eqn:Hi; [|discriminate];
       exists i, (mkForwarder xs c p).
  - destruct xs, c; try discriminate. injection Hstep as <-.
    eexists. split; [exact Hi|]. repeat (split; [reflexivity|]).
    left. exists p. repeat split.
  - destruct xs as [|n rest], c, p; try discriminate. injection Hstep as <-.
    eexists. split; [exact Hi|]. repeat (split; [reflexivity|]).
    right. left. exists n, rest. repeat split.
  - destruct xs, c, p; try discriminate. injection Hstep as <-.
    eexists. split; [exact Hi|]. repeat (split; [reflexivity|]).
    right. right. left. repeat split.
  - destruct p as [|n|]; try discriminate.
    destruct (out_closed s) eqn:Eo; [discriminate|]. injection Hstep as <-.
    eexists. split; [exact Hi|]. split; [reflexivity|]. split; [reflexivity|].
    right. right. right. exists n, xs, c. repeat split.
  - left. destruct (wg s) eqn:Ew; [|discriminate].
    destruct (out_closed s) eqn:Eo; [discriminate|]. injection Hstep as <-.
    repeat split.
Qed.

(** Evaluate the two summands of [sum_insert] that stand for the replaced
    and the new element. *)
Ltac eval_ends H :=
  match type of H with
  | _ + ?a = _ + ?b =>
      let a' := eval cbn in a in
      let b' := eval cbn in b in
      change a with a' in H; change b with b' in H
  end.

Lemma merge_step_inv (streams : list (list Z)) (s : state) (l : label) (s' : state) :
  inv streams s -> step s l = Some s' -> inv streams s'.
Proof.
  intros [He Ho Hc Hw Hout Hlen] Hstep.
  destruct (merge_step_shape s l s' Hstep)
    as [(-> & Hwg & Hoc & ->) | (i & f & f' & Hi & Hfw & Hoc & Hcase)].
  { split; cbn; auto. }
  pose proof (Forall_lookup_1 _ _ _ _ He Hi) as [Hok1 Hok2].
  pose proof (sum_insert (fun f => length (in_flight f)) _ i f f' Hi) as Hsum.
  pose proof (sum_insert alive _ i f f' Hi) as Halive.
  assert (Hlt : i < length (fwds s)) by (eapply lookup_lt_Some; exact Hi).
  destruct (Ho i f Hi) as (xs & Hxs & Hfrom).
  assert (Hother : forall j g, j <> i -> <[i := f']> (fwds s) !! j = Some g ->
            exists ys, streams !! j = Some ys
                       /\ from j (out_log s) ++ in_flight g = ys).
  { intros j g Hne Hj. rewrite list_lookup_insert_ne in Hj by congruence.
    apply Ho. exact Hj. }
  assert (Hmine : forall g, <[i := f']> (fwds s) !! i = Some g -> g = f').
  { intros g Hg. rewrite list_lookup_insert_eq in Hg by exact Hlt. congruence. }
  destruct Hcase as [(p & -> & -> & -> & Hwg & Hlog)
                    |[(n & rest & -> & -> & -> & Hwg & Hlog)
                    |[(-> & -> & -> & Hwg & Hlog)
                    |(n & ys & c & -> & -> & -> & Hoc' & Hwg & Hlog)]]];
    (split; rewrite ?Hfw, ?Hwg, ?Hlog, ?Hoc).
  all: try (apply Forall_insert; [exact He|]; split; cbn in *; auto; discriminate).
  all: try (intros j g Hj; destruct (decide (j = i)) as [->|Hne];
            [ rewrite (Hmine g Hj); exists xs; split; [exact Hxs|];
              rewrite ?from_snoc, ?decide_True by reflexivity;
              rewrite <- Hfrom; unfold in_flight; cbn; rewrite <- ?app_assoc; reflexivity
            | destruct (Hother j g Hne Hj) as (zs & Hzs & Hz); exists zs;
              split; [exact Hzs|];
              rewrite ?from_snoc, ?decide_False, ?app_nil_r by congruence; exact Hz ]).
  all: try (intros Hcl; specialize (Hout Hcl); lia).
  all: try (rewrite length_insert; exact Hlen).
  all: try (destruct p); eval_ends Hsum; eval_ends Halive;
    rewrite ?length_app; cbn [length]; lia.
Qed.

Lemma merge_step_decreases (s : state) (l : label) (s' : state) :
  step s l = Some s' -> measure s' < measure s.
Proof.
  intros Hstep. unfold measure.
  destruct (merge_step_shape s l s' Hstep)
    as [(-> & Hwg & Hoc & ->) | (i & f & f' & Hi & Hfw & Hoc & Hcase)].
  { cbn. rewrite Hoc. lia. }
  pose proof (sum_insert weight _ i f f' Hi) as Hsum.
  rewrite Hfw, Hoc.
  destruct Hcase as [(p & -> & -> & -> & _)
                    |[(n & rest & -> & -> & -> & _)
                    |[(-> & -> & -> & _)
                    |(n & ys & c & -> & -> & -> & _)]]];
    try (destruct p); try (destruct c); eval_ends Hsum; lia.
Qed.

Lemma some_alive (l : list forwarder) :
  0 < sum_list_with alive l -> exists i f, l !! i = Some f /\ pc f <> FDone.
Proof.
  induction l as [|f l IH]; cbn; [lia|]. intros Hpos.
  destruct (pc f) eqn:Ep.
  - exists 0, f. split; [reflexivity | congruence].
  - exists 0, f. split; [reflexivity | congruence].
  - unfold alive in Hpos at 1. rewrite Ep in Hpos. cbn in Hpos.
    destruct (IH Hpos) as (i & g & Hg & Hne). exists (S i), g. split; assumption.
Qed.

Lemma none_alive (l : list forwarder) :
  sum_list_with alive l = 0 -> Forall (fun f => pc f = FDone) l.
Proof.
  induction l as [|f l IH]; cbn; intros Hz; constructor.
  - unfold alive in Hz. destruct (pc f); cbn in Hz; [lia | lia | reflexivity].
  - apply IH. lia.
Qed.

Lemma merge_progress (streams : list (list Z)) (s : state) :
  inv streams s -> out_closed s = false -> exists l s', step s l = Some s'.
Proof.
  intros [He Ho Hc Hw Hout Hlen] Hopen.
  destruct (wg s) as [|k] eqn:Ewg.
  - exists LCloseOut. eexists. cbn. rewrite Ewg, Hopen. reflexivity.
  - destruct (some_alive (fwds s)) as (i & [xs c p] & Hi & Hp); [lia|].
    pose proof (Forall_lookup_1 _ _ _ _ He Hi) as [Hok1 Hok2]. cbn in *.
    destruct p as [|n|]; [|exists (LDeliver i)|congruence].
    + destruct xs as [|n rest].
      * destruct c.
        -- exists (LInputEnd i). eexists. cbn. rewrite Hi. reflexivity.
        -- exists (LProducerClose i). eexists. cbn. rewrite Hi. reflexivity.
      * destruct c; [specialize (Hok1 eq_refl); discriminate|].
        exists (LRecvIn i). eexists. cbn. rewrite Hi. reflexivity.
    + eexists. cbn. rewrite Hi, Hopen. reflexivity.
Qed.

Lemma prefix_so_far (streams : list (list Z)) (s : state) :
  inv streams s ->
  (forall i xs, streams !! i = Some xs -> exists rest, from i (out_log s) ++ rest = xs)
  /\ length (out_log s) <= total streams.
Proof.
  intros [He Ho Hc Hw Hout Hlen]. split; [|lia].
  intros i xs Hxs.
  destruct (lookup_lt_is_Some_2 (fwds s) i) as [f Hf].
  { rewrite Hlen. eapply lookup_lt_Some. exact Hxs. }
  destruct (Ho i f Hf) as (ys & Hys & Hfrom).
  exists (in_flight f). congruence.
Qed.

Lemma merge_closed_means_all (streams : list (list Z)) (s : state) :
  inv streams s -> out_closed s = true ->
  length (out_log s) = total streams
  /\ (forall i xs, streams !! i = Some xs -> from i (out_log s) = xs)
  /\ Forall (fun f => in_closed f = true) (fwds s).
Proof.
  intros [He Ho Hc Hw Hout Hlen] Hcl. specialize (Hout Hcl).
  rewrite Hout in Hw. symmetry in Hw. apply none_alive in Hw.
  assert (Hdone : Forall (fun f => in_closed f = true /\ in_flight f = []) (fwds s)).
  { apply Forall_forall. intros f Hf.
    pose proof (proj1 (Forall_forall _ _) He f Hf) as [Hok1 Hok2].
    pose proof (proj1 (Forall_forall _ _) Hw f Hf) as Hpc. cbn in Hpc.
    split; [auto|]. unfold in_flight. rewrite Hpc, (Hok1 (Hok2 Hpc)). reflexivity. }
  split; [|split].
  - assert (Hz : sum_list_with (fun f => length (in_flight f)) (fwds s) = 0).
    { clear -Hdone. induction Hdone as [|f l [_ Hf] _ IH]; cbn; [reflexivity|].
      rewrite Hf, IH. reflexivity. }
    lia.
  - intros i xs Hxs.
    destruct (lookup_lt_is_Some_2 (fwds s) i) as [f Hf].
    { rewrite Hlen. eapply lookup_lt_Some. exact Hxs. }
    destruct (Ho i f Hf) as (ys & Hys & Hfrom).
    pose proof (Forall_lookup_1 _ _ _ _ Hdone Hf) as [_ Hnil].
    rewrite Hnil, app_nil_r in Hfrom. congruence.
  - eapply Forall_impl; [exact Hdone|]. intros f [Hf _]. exact Hf.
Qed.

Lemma measure_merge (streams : list (list Z)) :
  measure (merge streams) = 2 * total streams + 2 * length streams + 1.
Proof.
  unfold measure, total. cbn.
  induction streams as [|xs streams IH]; [reflexivity|].
  cbn [map sum_list_with length] in *. unfold weight at 1. cbn. lia.
Qed.

(** C5: for all input streams, in every run of merge: what each forwarding
    goroutine has put on the output is a prefix of its input stream, and
    the output has carried at most N1+...+NK values; when the output is
    closed it has carried exactly N1+...+NK values, those of every input
    stream completely and in that stream's order, and every input has been
    closed; no run is longer than [2 * (N1+...+NK) + 2 * K + 1] steps and
    as long as the output is open a further step is possible, so the runs
    get to the closure of the output. *)
Theorem merge_forwards_everything_then_closes (streams : list (list Z)) :
  (forall ls s,
     Sched.run step (merge streams) ls = Some s ->
     (forall i xs, streams !! i = Some xs ->
                   exists rest, from i (out_log s) ++ rest = xs)
     /\ length (received s) <= total streams
     /\ (out_closed s = true ->
          length (received s) = total streams
          /\ (forall i xs, streams !! i = Some xs -> from i (out_log s) = xs)
          /\ Forall (fun f => in_closed f = true) (fwds s))
     /\ length ls <= 2 * total streams + 2 * length streams + 1
     /\ (out_closed s = false -> exists l s', step s l = Some s'))
  /\ (exists ls s, Sched.run step (merge streams) ls = Some s
                   /\ out_closed s = true).
Proof.
  split.
  - intros ls s Hrun.
    pose proof (Sched.run_inv step (inv streams) (merge_step_inv streams)
                  ls _ _ (merge_inv streams) Hrun) as Hinv.
    pose proof (Sched.run_bounded step measure merge_step_decreases ls _ _ Hrun) as Hlen.
    rewrite measure_merge in Hlen. unfold received. rewrite length_map.
    destruct (prefix_so_far streams s Hinv) as [Hpre Hle].
    split; [exact Hpre|]. split; [exact Hle|]. split; [|split].
    + apply merge_closed_means_all. exact Hinv.
    + lia.
    + apply (merge_progress streams s Hinv).
  - apply (Sched.can_finish step measure out_closed (inv streams)
             merge_step_decreases (merge_step_inv streams) (merge_progress streams)
             (merge streams) (merge_inv streams)).
Qed.

(** Two streams, 1 2 and 10, forwarded in an interleaved order. *)
Definition interleaved : list label :=
  [LRecvIn 0; LRecvIn 1; LDeliver 1; LProducerClose 1; LDeliver 0; LRecvIn 0;
   LInputEnd 1; LDeliver 0; LProducerClose 0; LInputEnd 0; LCloseOut].

(** C5 on that run. *)
Lemma merge_forwards_everything_then_closes_witness :
  match Sched.run step (merge [[1; 2]; [10]]%Z) interleaved with
  | Some s =>
      received s = [10; 1; 2]%Z
      /\ length (received s) = total [[1; 2]; [10]]%Z
      /\ Forall (fun f => in_closed f = true) (fwds s)
  | None => False
  end.
Proof.
  destruct (Sched.run step (merge [[1; 2]; [10]]%Z) interleaved) as [s|] eqn:E;
    [|vm_compute in E; discriminate].
  assert (Hs : received s = [10; 1; 2]%Z /\ out_closed s = true).
  { vm_compute in E. injection E as <-. split; reflexivity. }
  destruct Hs as [Hrec Hcl]. split; [exact Hrec|].
  destruct (proj1 (merge_forwards_everything_then_closes [[1; 2]; [10]]%Z)
              interleaved s E) as (_ & _ & Hall & _).
  destruct (Hall Hcl) as (Hlen & _ & Hin). split; [exact Hlen | exact Hin].
Defined.


End Merge.

(** ** The bank handler (comprehensiveActorExample, 07_actor.go:587-629) *)
Module Bank.

Local Open Scope Z_scope.

Record Account : Type := mkAccount {
  ID : string;
  Balance : Z
}.

(** A BankMessage without its Response channel: what the handler sends on
    that channel is the second component of the handler's result. *)
Record BankMessage : Type := mkBankMessage {
  Operation : string;
  AccountID : string;
  Amount : Z
}.

(** The values the handler sends: a text or a balance. *)
Inductive reply : Type :=
  | Text (s : string)
  | Number (n : Z).

(** The body of the handler under [mu]: the [switch] on the operation, on
    the map of accounts; [int] arithmetic wraps. *)
Definition bank_handler (accounts : gmap string Account) (m : BankMessage)
  : gmap string Account * option reply :=
  if (Operation m =? "create")%string then
    (<[AccountID m := mkAccount (AccountID m) 0]> accounts,
     Some (Text "Account created successfully"))
  else if (Operation m =? "deposit")%string then
    match accounts !! AccountID m with
    | Some account =>
        let b := Pipeline.wrap64 (Balance account + Amount m) in
        (<[AccountID m := mkAccount (ID account) b]> accounts, Some (Number b))
    | None => (accounts, Some (Text "Account does not exist"))
    end
  else if (Operation m =? "withdraw")%string then
    match accounts !! AccountID m with
    | Some account =>
        if Amount m <=? Balance account then
          let b := Pipeline.wrap64 (Balance account - Amount m) in
          (<[AccountID m := mkAccount (ID account) b]> accounts, Some (Number b))
        else (accounts, Some (Text "Insufficient balance"))
    | None => (accounts, Some (Text "Account does not exist"))
    end
  else if (Operation m =? "balance")%string then
    match accounts !! AccountID m with
    | Some account => (accounts, Some (Number (Balance account)))
    | None => (accounts, Some (Text "Account does not exist"))
    end
  else (accounts, None).

(** The handler called on the messages [ms] in turn: the accounts at the
    end and the values sent. *)
Fixpoint serve (accounts : gmap string Account) (ms : list BankMessage)
  : gmap string Account * list (option reply) :=
  match ms with
  | [] => (accounts, [])
  | m :: ms' =>
      let '(accounts1, r) := bank_handler accounts m in
      let '(accounts2, rs) := serve accounts1 ms' in
      (accounts2, r :: rs)
  end.

(** What a deposit message adds, and the sum over the messages. *)
Definition deposit_of (m : BankMessage) : Z :=
  if (Operation m =? "deposit")%string then Amount m else 0.

Definition deposited (ms : list BankMessage) : Z :=
  foldr (fun m acc => deposit_of m + acc) 0 ms.

Definition int_range (z : Z) : Prop := - 2 ^ 63 <= z < 2 ^ 63.

(** Every balance is between 0 and [bound]. *)
Definition within (bound : Z) (accounts : gmap string Account) : Prop :=
  forall id a, accounts !! id = Some a -> 0 <= Balance a <= bound.

Lemma wrap64_id (z : Z) : int_range z -> Pipeline.wrap64 z = z.
Proof.
  unfold int_range, Pipeline.wrap64. intros Hz.
  rewrite Z.mod_small by lia. lia.
Qed.

(** X12: a withdraw of a non-negative amount from an existing account
    never overdraws: when the balance covers the amount, the balance
    goes down by the amount, stays non-negative and is the value sent;
    otherwise the accounts are left as they are and "Insufficient
    balance" is sent. *)
Theorem withdraw_never_overdraws (accounts : gmap string Account) (m : BankMessage)
    (a : Account) :
  Operation m = "withdraw" ->
  accounts !! AccountID m = Some a ->
  0 <= Amount m ->
  int_range (Balance a) ->
  (Amount m <= Balance a ->
     bank_handler accounts m =
       (<[AccountID m := mkAccount (ID a) (Balance a - Amount m)]> accounts,
        Some (Number (Balance a - Amount m)))
     /\ 0 <= Balance a - Amount m <= Balance a)
  /\ (Balance a < Amount m ->
      bank_handler accounts m = (accounts, Some (Text "Insufficient balance"))).
Proof.
  intros Hop Ha Hamt Hrange. unfold bank_handler. rewrite Hop, Ha. cbn.
  split; intros Hcmp.
  - rewrite (proj2 (Z.leb_le _ _) Hcmp).
    rewrite wrap64_id by (unfold int_range in *; lia). split; [reflexivity | lia].
  - rewrite (proj2 (Z.leb_gt _ _) Hcmp). reflexivity.
Qed.

(** X13: the handler touches no account but the one its message names;
    on an account that does not exist, deposit, withdraw and balance leave
    the accounts as they are and send "Account does not exist"; and a
    message with any other operation than the four changes nothing and
    sends nothing, whether its account exists or not. *)
Theorem other_accounts_untouched (accounts : gmap string Account) (m : BankMessage) :
  (forall id, id <> AccountID m ->
              fst (bank_handler accounts m) !! id = accounts !! id)
  /\ (accounts !! AccountID m = None ->
      Operation m = "deposit" \/ Operation m = "withdraw" \/ Operation m = "balance" ->
      bank_handler accounts m = (accounts, Some (Text "Account does not exist")))
  /\ (Operation m <> "create" -> Operation m <> "deposit" ->
      Operation m <> "withdraw" -> Operation m <> "balance" ->
      bank_handler accounts m = (accounts, None)).
Proof.
  unfold bank_handler. split; [|split].
  - intros id Hid.
    repeat case_match; cbn; try reflexivity; apply lookup_insert_ne; congruence.
  - intros Hnone [Hop|[Hop|Hop]]; rewrite Hop, Hnone; reflexivity.
  - intros H1 H2 H3 H4.
    rewrite (proj2 (String.eqb_neq _ _) H1), (proj2 (String.eqb_neq _ _) H2),
      (proj2 (String.eqb_neq _ _) H3), (proj2 (String.eqb_neq _ _) H4).
    reflexivity.
Qed.

(** X14: create does not look at the map: on an account that exists it
    replaces the account by one with balance 0, and the next balance
    message is answered with 0, whatever had been deposited. *)
Theorem create_resets_the_balance (accounts : gmap string Account) (id : string) (n : Z) :
  snd (serve accounts [mkBankMessage "create" id n; mkBankMessage "balance" id n])
    = [Some (Text "Account created successfully"); Some (Number 0)]
  /\ fst (serve accounts [mkBankMessage "create" id n; mkBankMessage "balance" id n]) !! id
     = Some (mkAccount id 0).
Proof.
  cbn. unfold bank_handler. cbn. rewrite lookup_insert_eq. cbn.
  split; [reflexivity | apply lookup_insert_eq].
Qed.

(** X15: withdraw does not look at the sign of the amount: a negative
    amount is always covered by a non-negative balance, and the new
    balance, which is also the value sent, is balance minus amount in
    [int] arithmetic. That is the balance plus the absolute value of the
    amount when this fits an [int]; when it does not (balance and amount
    being [int]s), the new balance is negative. *)
Theorem negative_withdraw_credits (accounts : gmap string Account) (m : BankMessage)
    (a : Account) :
  Operation m = "withdraw" ->
  accounts !! AccountID m = Some a ->
  Amount m < 0 <= Balance a ->
  bank_handler accounts m =
    (<[AccountID m := mkAccount (ID a) (Pipeline.wrap64 (Balance a - Amount m))]> accounts,
     Some (Number (Pipeline.wrap64 (Balance a - Amount m))))
  /\ (int_range (Balance a - Amount m) ->
      Pipeline.wrap64 (Balance a - Amount m) = Balance a + Z.abs (Amount m))
  /\ (int_range (Balance a) -> int_range (Amount m) ->
      ~ int_range (Balance a - Amount m) ->
      Pipeline.wrap64 (Balance a - Amount m) < 0).
Proof.
  intros Hop Ha Hneg. split; [|split].
  - unfold bank_handler. rewrite Hop, Ha. cbn.
    rewrite (proj2 (Z.leb_le _ _)) by lia. reflexivity.
  - intros Hrange. rewrite wrap64_id by exact Hrange. lia.
  - unfold int_range, Pipeline.wrap64. intros Hb Hm Hout.
    assert (H64 : 2 ^ 64 = 2 * 2 ^ 63) by reflexivity.
    replace (Balance a - Amount m + 2 ^ 63)
      with (Balance a - Amount m - 2 ^ 63 + 1 * 2 ^ 64) by lia.
    rewrite Z_mod_plus_full, Z.mod_small by lia. lia.
Qed.

Lemma handler_within (bound : Z) (accounts : gmap string Account) (m : BankMessage) :
  within bound accounts ->
  0 <= bound ->
  0 <= Amount m ->
  bound + deposit_of m < 2 ^ 63 ->
  within (bound + deposit_of m) (fst (bank_handler accounts m)).
Proof.
  intros Hw Hb Hamt Hfit id a. unfold bank_handler, deposit_of in *.
  destruct (Operation m =? "create")%string eqn:E1.
  { apply String.eqb_eq in E1. rewrite E1 in *. cbn in *.
    intros Hl. apply lookup_insert_Some in Hl as [[_ <-]|[_ Hl]].
    - cbn. lia.
    - specialize (Hw _ _ Hl). lia. }
  destruct (Operation m =? "deposit")%string eqn:E2.
  { destruct (accounts !! AccountID m) as [acc|] eqn:Hacc; cbn.
    - intros Hl. apply lookup_insert_Some in Hl as [[_ <-]|[_ Hl]].
      + cbn. specialize (Hw _ _ Hacc).
        rewrite wrap64_id by (unfold int_range; lia). lia.
      + specialize (Hw _ _ Hl). lia.
    - intros Hl. specialize (Hw _ _ Hl). lia. }
  rewrite Z.add_0_r.
  destruct (Operation m =? "withdraw")%string eqn:E3.
  { destruct (accounts !! AccountID m) as [acc|] eqn:Hacc; cbn; [|apply Hw].
    destruct (Amount m <=? Balance acc) eqn:E; cbn; [|apply Hw].
    apply Z.leb_le in E.
    intros Hl. apply lookup_insert_Some in Hl as [[_ <-]|[_ Hl]]; [|apply (Hw _ _ Hl)].
    cbn. specialize (Hw _ _ Hacc).
    rewrite wrap64_id by (unfold int_range; lia). lia. }
  destruct (Operation m =? "balance")%string; [|apply Hw].
  destruct (accounts !! AccountID m); cbn; apply Hw.
Qed.

Lemma deposited_nonneg (ms : list BankMessage) :
  Forall (fun m => 0 <= Amount m) ms -> 0 <= deposited ms.
Proof.
  induction 1 as [|m ms Hm _ IH]; cbn; [lia|].
  fold (deposited ms). unfold deposit_of.
  destruct (Operation m =? "deposit")%string; lia.
Qed.

Lemma serve_within (ms : list BankMessage) :
  forall (bound : Z) (accounts : gmap string Account),
    within bound accounts ->
    0 <= bound ->
    Forall (fun m => 0 <= Amount m) ms ->
    bound + deposited ms < 2 ^ 63 ->
    within (bound + deposited ms) (fst (serve accounts ms)).
Proof.
  induction ms as [|m ms IH]; intros bound accounts Hw Hb Hall Hfit.
  - cbn. rewrite Z.add_0_r. exact Hw.
  - apply Forall_cons in Hall as [Hm Hall]. cbn [serve deposited foldr] in *.
    fold (deposited ms) in *.
    pose proof (deposited_nonneg ms Hall) as Hd.
    assert (Hdm : 0 <= deposit_of m).
    { unfold deposit_of. destruct (Operation m =? "deposit")%string; lia. }
    pose proof (handler_within bound accounts m Hw Hb Hm ltac:(lia)) as Hw1.
    destruct (bank_handler accounts m) as [accounts1 r]. cbn [fst] in Hw1.
    specialize (IH (bound + deposit_of m) accounts1 Hw1 ltac:(lia) Hall ltac:(lia)).
    destruct (serve accounts1 ms) as [accounts2 rs]. cbn [fst] in *.
    rewrite Z.add_assoc. exact IH.
Qed.

(** X16: start with no account and serve any messages with non-negative
    amounts whose deposits add up to less than 2^63: at the end every
    balance is between 0 and the sum of the deposits; no balance has ever
    wrapped around or gone negative. *)
Theorem balances_within_deposits (ms : list BankMessage) (id : string) (a : Account) :
  Forall (fun m => 0 <= Amount m) ms ->
  deposited ms < 2 ^ 63 ->
  fst (serve ∅ ms) !! id = Some a ->
  0 <= Balance a <= deposited ms.
Proof.
  intros Hall Hfit Ha.
  pose proof (serve_within ms 0 ∅) as Hw. rewrite Z.add_0_l in Hw.
  apply (Hw ltac:(intros i x Hx; rewrite lookup_empty in Hx; discriminate)
            ltac:(lia) Hall Hfit id a Ha).
Qed.

(** The operations of client 1 in comprehensiveActorExample, and an
    overdraft. *)
Definition client1 : list BankMessage :=
  [mkBankMessage "create" "ACC001" 0; mkBankMessage "deposit" "ACC001" 1000;
   mkBankMessage "balance" "ACC001" 0; mkBankMessage "withdraw" "ACC001" 300;
   mkBankMessage "withdraw" "ACC001" 5000].

(** X12 on the last two messages of client 1. *)
Lemma withdraw_never_overdraws_witness :
  bank_handler {["ACC001" := mkAccount "ACC001" 1000]} (mkBankMessage "withdraw" "ACC001" 300)
    = (<["ACC001" := mkAccount "ACC001" 700]> {["ACC001" := mkAccount "ACC001" 1000]},
       Some (Number 700))
  /\ bank_handler {["ACC001" := mkAccount "ACC001" 700]}
       (mkBankMessage "withdraw" "ACC001" 5000)
     = ({["ACC001" := mkAccount "ACC001" 700]}, Some (Text "Insufficient balance")).
Proof.
  split.
  - destruct (withdraw_never_overdraws {["ACC001" := mkAccount "ACC001" 1000]}
                (mkBankMessage "withdraw" "ACC001" 300) (mkAccount "ACC001" 1000)
                eq_refl (lookup_singleton_eq _ _) ltac:(cbn; lia)
                ltac:(unfold int_range; cbn; lia))
      as [Hok _].
    exact (proj1 (Hok ltac:(cbn; lia))).
  - destruct (withdraw_never_overdraws {["ACC001" := mkAccount "ACC001" 700]}
                (mkBankMessage "withdraw" "ACC001" 5000) (mkAccount "ACC001" 700)
                eq_refl (lookup_singleton_eq _ _) ltac:(cbn; lia)
                ltac:(unfold int_range; cbn; lia))
      as [_ Hno].
    apply Hno. cbn. lia.
Defined.

(** X13 on a deposit to an account nobody created, and on an operation
    the handler does not know, on an account that exists. *)
Lemma other_accounts_untouched_witness :
  bank_handler {["ACC001" := mkAccount "ACC001" 700]} (mkBankMessage "deposit" "ACC009" 5)
  = ({["ACC001" := mkAccount "ACC001" 700]}, Some (Text "Account does not exist"))
  /\ bank_handler {["ACC001" := mkAccount "ACC001" 700]}
       (mkBankMessage "transfer" "ACC001" 5)
     = ({["ACC001" := mkAccount "ACC001" 700]}, None).
Proof.
  split.
  - apply (proj1 (proj2 (other_accounts_untouched {["ACC001" := mkAccount "ACC001" 700]}
                           (mkBankMessage "deposit" "ACC009" 5)))).
    + apply lookup_singleton_ne. discriminate.
    + left. reflexivity.
  - apply (proj2 (proj2 (other_accounts_untouched {["ACC001" := mkAccount "ACC001" 700]}
                           (mkBankMessage "transfer" "ACC001" 5))));
      discriminate.
Defined.

(** X15 on a withdraw of -100 from an empty account, and on a withdraw
    of -2^63 from an account holding 1. *)
Lemma negative_withdraw_credits_witness :
  bank_handler {["ACC001" := mkAccount "ACC001" 0]} (mkBankMessage "withdraw" "ACC001" (-100))
  = (<["ACC001" := mkAccount "ACC001" 100]> {["ACC001" := mkAccount "ACC001" 0]},
     Some (Number 100))
  /\ Pipeline.wrap64 (1 - - 2 ^ 63) < 0.
Proof.
  split.
  - exact (proj1 (negative_withdraw_credits {["ACC001" := mkAccount "ACC001" 0]}
                    (mkBankMessage "withdraw" "ACC001" (-100)) (mkAccount "ACC001" 0)
                    eq_refl (lookup_singleton_eq _ _) ltac:(cbn; lia))).
  - apply (proj2 (proj2 (negative_withdraw_credits {["ACC001" := mkAccount "ACC001" 1]}
                    (mkBankMessage "withdraw" "ACC001" (- 2 ^ 63)) (mkAccount "ACC001" 1)
                    eq_refl (lookup_singleton_eq _ _) ltac:(cbn; lia))));
      unfold int_range; cbn; lia.
Defined.

(** X16 on client 1. *)
Lemma balances_within_deposits_witness :
  0 <= 700 <= deposited client1.
Proof.
  apply (balances_within_deposits client1 "ACC001" (mkAccount "ACC001" 700)).
  - repeat constructor; cbn; lia.
  - vm_compute. reflexivity.
  - vm_compute. reflexivity.
Defined.

End Bank.

(** ** workerPool and worker (README.md:2118-2151) *)
Module WorkerPool.

(** What a worker sends for a job: [job * 2] on [int]. *)
Definition double (job : Z) : Z := Pipeline.wrap64 (job * 2).

(** The main goroutine: in its loop of sends with [rest] to go (after it,
    [close(jobs)]), or in its loop of receives with [k] to go. *)
Inductive main_pc : Type :=
  | MSend (rest : list Z)
  | MCollect (k : nat).

(** A goroutine running [worker]: at the receive of its [range], at
    [results <- job * 2], or returned. *)
Inductive worker_pc : Type :=
  | WRecv
  | WSend (job : Z)
  | WDone.

Record state : Type := mkState {
  numJobs : nat;
  main : main_pc;
  jobs : Chan.chan Z;
  results : Chan.chan Z;
  workers : list worker_pc;
  collected : list Z
}.

(** The state after the workers are spawned: both channels are made with
    capacity [numJobs], and main is about to send the jobs [js]. *)
Definition pool (numWorkers : nat) (js : list Z) : state :=
  mkState (length js) (MSend js) (Chan.make (length js)) (Chan.make (length js))
    (replicate numWorkers WRecv) [].

(** The source's constants: 3 workers and the jobs 1 to 10. *)
Definition workerPool : state :=
  pool 3 (Z.of_nat <$> seq 1 10).

Inductive label : Type :=
  | LMainSend
  | LMainClose
  | LMainCollect
  | LWorkerRecv (i : nat)
  | LWorkerSend (i : nat)
  | LWorkerEnd (i : nat).

Definition step (s : state) (l : label) : option state :=
  match l with
  | LMainSend =>
      (* [jobs <- i] *)
      match main s with
      | MSend (job :: rest) =>
          match Chan.send (jobs s) job with
          | Chan.SendOk c =>
              Some (mkState (numJobs s) (MSend rest) c (results s) (workers s) (collected s))
          | _ => None
          end
      | _ => None
      end
  | LMainClose =>
      (* [close(jobs)], then on to the loop of receives *)
      match main s with
      | MSend [] =>
          match Chan.close (jobs s) with
          | (c, Returned _) =>
              Some (mkState (numJobs s) (MCollect (numJobs s)) c (results s)
                      (workers s) (collected s))
          | _ => None
          end
      | _ => None
      end
  | LMainCollect =>
      (* [result := <-results] *)
      match main s with
      | MCollect (S k) =>
          match Chan.recv (results s) with
          | Chan.RecvOk v c =>
              Some (mkState (numJobs s) (MCollect k) (jobs s) c (workers s)
                      (collected s ++ [v]))
          | _ => None
          end
      | _ => None
      end
  | LWorkerRecv i =>
      (* [job := range jobs] receives a job *)
      match workers s !! i, Chan.recv (jobs s) with
      | Some WRecv, Chan.RecvOk job c =>
          Some (mkState (numJobs s) (main s) c (results s)
                  (<[i := WSend job]> (workers s)) (collected s))
      | _, _ => None
      end
  | LWorkerEnd i =>
      (* [range jobs] sees the channel closed and empty *)
      match workers s !! i, Chan.recv (jobs s) with
      | Some WRecv, Chan.RecvClosed =>
          Some (mkState (numJobs s) (main s) (jobs s) (results s)
                  (<[i := WDone]> (workers s)) (collected s))
      | _, _ => None
      end
  | LWorkerSend i =>
      (* [results <- job * 2] *)
      match workers s !! i with
      | Some (WSend job) =>
          match Chan.send (results s) (double job) with
          | Chan.SendOk c =>
              Some (mkState (numJobs s) (main s) (jobs s) c
                      (<[i := WRecv]> (workers s)) (collected s))
          | _ => None
          end
      | _ => None
      end
  end.

Definition rest_of (s : state) : list Z :=
  match main s with MSend rest => rest | MCollect _ => [] end.

Definition in_work (ws : list worker_pc) : list Z :=
  omap (fun w => match w with WSend job => Some job | _ => None end) ws.

Definition busy (ws : list worker_pc) : nat :=
  length (omap (fun w => match w with WDone => None | _ => Some tt end) ws).

(** Every job is at one place: collected, queued as a result, in a
    worker's hands, queued as a job, or still to be sent. *)
Definition places (s : state) : list Z :=
  collected s ++ Chan.buf (results s) ++ (double <$> in_work (workers s))
  ++ (double <$> Chan.buf (jobs s)) ++ (double <$> rest_of s).

Definition finished (s : state) : bool :=
  match main s with MCollect 0 => true | _ => false end.

Definition measure (s : state) : nat :=
  4 * length (rest_of s) + 3 * length (Chan.buf (jobs s))
  + 2 * length (in_work (workers s)) + length (Chan.buf (results s))
  + match main s with MSend _ => 1 | MCollect _ => 0 end
  + busy (workers s).

Record inv (numWorkers : nat) (js : list Z) (s : state) : Prop := {
  inv_places : places s ≡ₚ double <$> js;
  inv_num : numJobs s = length js;
  inv_cap_jobs : Chan.cap (jobs s) = length js;
  inv_cap_results : Chan.cap (results s) = length js;
  inv_results_open : Chan.closed (results s) = false;
  inv_jobs_closed :
    Chan.closed (jobs s) = match main s with MSend _ => false | MCollect _ => true end;
  inv_collect :
    match main s with
    | MSend _ => collected s = []
    | MCollect k => length (collected s) + k = length js
    end;
  inv_done : Forall (fun w => w = WDone ->
                              Chan.closed (jobs s) = true /\ Chan.buf (jobs s) = [])
               (workers s);
  inv_workers : length (workers s) = numWorkers
}.


Ltac pool_cases Hstep :=
  unfold step, Chan.send, Chan.recv, Chan.close in Hstep;
  repeat (case_match; try discriminate);
  simplify_eq;
  cbn [numJobs main jobs results workers collected Chan.buf Chan.cap Chan.closed] in *.

Ltac split_workers :=
  match goal with
  | Hi : ?ws !! ?i = Some ?w |- context [<[?i := ?w']> ?ws] =>
      let l1 := fresh "l1" in
      let l2 := fresh "l2" in
      let E := fresh "E" in
      let E' := fresh "E'" in
      destruct (insert_middle ws i w w' Hi) as (l1 & l2 & E & E');
      rewrite E'; rewrite E
  end.

Lemma pool_inv (numWorkers : nat) (js : list Z) : inv numWorkers js (pool numWorkers js).
Proof.
  split; cbn; auto.
  - unfold places, in_work. cbn.
    assert (Hw : omap (fun w => match w with WSend job => Some job | _ => None end)
                   (replicate numWorkers WRecv) = []).
    { induction numWorkers; [reflexivity | exact IHnumWorkers]. }
    rewrite Hw. reflexivity.
  - apply Forall_forall. intros w Hw. apply elem_of_replicate in Hw as [-> _]. discriminate.
  - apply length_replicate.
Qed.

Ltac perm_norm :=
  rewrite <- ?app_assoc; cbn [app fmap list_fmap];
  rewrite <- ?Permutation_cons_append; repeat rewrite <- Permutation_middle.

Lemma pool_step_inv (numWorkers : nat) (js : list Z) (s : state) (l : label) (s' : state) :
  inv numWorkers js s -> step s l = Some s' -> inv numWorkers js s'.
Proof.
  intros [Hp Hn Hcj Hcr Hro Hjc Hc Hd Hw] Hstep.
  unfold places, rest_of in *.
  destruct l; pool_cases Hstep;
    repeat match goal with
           | Hb : Chan.buf _ = _ |- _ => rewrite Hb in *
           | Hb : Chan.closed _ = _ |- _ => rewrite Hb in *
           | Hb : main _ = _ |- _ => rewrite Hb in *
           end;
    (split;
     cbn [numJobs main jobs results workers collected Chan.buf Chan.cap Chan.closed];
     rewrite ?length_insert, ?length_app; cbn [length]; auto; try lia).
  all: try (apply Forall_insert; [|intros; try discriminate; auto]).
  all: try (eapply Forall_impl; [exact Hd|]; cbn; intros w Hw' Hdone;
            destruct (Hw' Hdone); try discriminate; auto).
  all: try (rewrite Hc, Hn; reflexivity).
  all: unfold places, rest_of, in_work in *;
    cbn [main jobs results workers collected Chan.buf] in *;
    repeat match goal with
           | Hb : Chan.buf _ = _ |- _ => rewrite Hb
           end;
    rewrite <- Hp; try split_workers;
    rewrite ?omap_app, ?fmap_app; cbn [omap list_omap fmap list_fmap];
    rewrite ?fmap_app, ?app_nil_r; perm_norm; rewrite ?app_nil_r; reflexivity.
Qed.

Lemma pool_step_decreases (s : state) (l : label) (s' : state) :
  step s l = Some s' -> measure s' < measure s.
Proof.
  intros Hstep. unfold measure, rest_of, in_work, busy.
  destruct l; pool_cases Hstep;
    cbn [numJobs main jobs results workers collected Chan.buf Chan.cap Chan.closed];
    repeat match goal with
           | Hb : Chan.buf _ = _ |- _ => rewrite Hb
           | Hb : main _ = _ |- _ => rewrite Hb
           end;
    simplify_eq; try split_workers; rewrite ?omap_app, ?length_app; cbn; lia.
Qed.

Lemma in_work_find (ws : list worker_pc) :
  in_work ws <> [] -> exists i job, ws !! i = Some (WSend job).
Proof.
  induction ws as [|w ws IH]; [intros Hne; exfalso; apply Hne; reflexivity|]. intros Hne.
  destruct w as [|job|].
  - destruct (IH Hne) as (i & job & Hi). exists (S i), job. exact Hi.
  - exists 0, job. reflexivity.
  - destruct (IH Hne) as (i & job & Hi). exists (S i), job. exact Hi.
Qed.

Lemma places_length (numWorkers : nat) (js : list Z) (s : state) :
  inv numWorkers js s ->
  length (collected s) + length (Chan.buf (results s)) + length (in_work (workers s))
  + length (Chan.buf (jobs s)) + length (rest_of s) = length js.
Proof.
  intros Hinv. pose proof (Permutation_length (inv_places _ _ _ Hinv)) as Hl.
  unfold places in Hl. rewrite !length_app, !length_fmap in Hl. lia.
Qed.

Lemma pool_progress (numWorkers : nat) (js : list Z) (s : state) :
  0 < numWorkers ->
  inv numWorkers js s -> finished s = false -> exists l s', step s l = Some s'.
Proof.
  intros Hpos Hinv Hfin. pose proof (places_length _ _ _ Hinv) as Hlen.
  destruct Hinv as [Hp Hn Hcj Hcr Hro Hjc Hc Hd Hw].
  unfold finished, rest_of in *.
  destruct (main s) as [[|job rest]|[|k]] eqn:Hm; [| | discriminate |].
  - exists LMainClose. eexists. cbn. rewrite Hm. unfold Chan.close. rewrite Hjc. reflexivity.
  - exists LMainSend. eexists. cbn. rewrite Hm. unfold Chan.send. rewrite Hjc, Hcj.
    cbn in Hlen. rewrite (proj2 (Nat.ltb_lt _ _)) by lia. reflexivity.
  - destruct (Chan.buf (results s)) as [|v rs] eqn:Hr.
    + destruct (in_work (workers s)) as [|job0 jobs0] eqn:Hiw.
      * cbn in Hlen.
        destruct (Chan.buf (jobs s)) as [|job rest] eqn:Hj; [cbn in Hlen; lia|].
        destruct (workers s) as [|w ws] eqn:Hws; [cbn in Hw; lia|].
        destruct w as [|job'|].
        -- exists (LWorkerRecv 0). eexists. cbn. rewrite Hws. cbn.
           unfold Chan.recv. rewrite Hj. reflexivity.
        -- cbn in Hiw. discriminate.
        -- apply Forall_cons in Hd as [Hd _]. destruct (Hd eq_refl) as [_ Hnil].
           try rewrite Hj in Hnil. discriminate.
      * destruct (in_work_find (workers s)) as (i & job & Hi); [rewrite Hiw; discriminate|].
        exists (LWorkerSend i). eexists. cbn. rewrite Hi. unfold Chan.send.
        rewrite Hro, Hr, Hcr. cbn [length].
        rewrite (proj2 (Nat.ltb_lt _ _)) by lia. reflexivity.
    + exists LMainCollect. eexists. cbn. rewrite Hm. unfold Chan.recv. rewrite Hr.
      reflexivity.
Qed.

Lemma finished_all_collected (numWorkers : nat) (js : list Z) (s : state) :
  inv numWorkers js s -> finished s = true ->
  collected s ≡ₚ double <$> js /\ Chan.buf (results s) = [] /\ Chan.buf (jobs s) = [].
Proof.
  intros Hinv Hfin. pose proof (places_length _ _ _ Hinv) as Hlen.
  destruct Hinv as [Hp Hn Hcj Hcr Hro Hjc Hc Hd Hw].
  unfold finished, places, rest_of in *.
  destruct (main s) as [|[|k]]; try discriminate.
  assert (H1 : Chan.buf (results s) = []) by (apply length_zero_iff_nil; lia).
  assert (H2 : in_work (workers s) = []) by (apply length_zero_iff_nil; lia).
  assert (H3 : Chan.buf (jobs s) = []) by (apply length_zero_iff_nil; lia).
  rewrite H1, H2, H3 in Hp. cbn in Hp. rewrite app_nil_r in Hp. auto.
Qed.

Lemma measure_pool (numWorkers : nat) (js : list Z) :
  measure (pool numWorkers js) = 4 * length js + 1 + numWorkers.
Proof.
  unfold measure, in_work, busy. cbn.
  assert (H1 : omap (fun w => match w with WSend job => Some job | _ => None end)
                 (replicate numWorkers WRecv) = []).
  { induction numWorkers; [reflexivity | assumption]. }
  assert (H2 : length (omap (fun w => match w with WDone => None | _ => Some tt end)
                         (replicate numWorkers WRecv)) = numWorkers).
  { clear H1. induction numWorkers as [|n IHn]; [reflexivity | cbn; f_equal; exact IHn]. }
  rewrite H1, H2. cbn. lia.
Qed.

(** X17: with at least one worker, in every run of the pool each job is
    at exactly one place (still to be sent, queued, in a worker's hands,
    queued as a result, collected); no send ever finds its channel full
    and main is never left waiting for good: as long as main has not
    collected [numJobs] results a further step is possible, and no run
    is longer than [4 * numJobs + 1 + numWorkers] steps; when main is
    through, it has collected the doubles of the jobs, each once, in
    some order, and both channels are empty. *)
Theorem every_job_is_done_once (numWorkers : nat) (js : list Z) :
  0 < numWorkers ->
  (forall ls s,
     Sched.run step (pool numWorkers js) ls = Some s ->
     places s ≡ₚ double <$> js
     /\ (finished s = true ->
         collected s ≡ₚ double <$> js
         /\ Chan.buf (results s) = [] /\ Chan.buf (jobs s) = [])
     /\ length ls <= 4 * length js + 1 + numWorkers
     /\ (finished s = false -> exists l s', step s l = Some s'))
  /\ (exists ls s, Sched.run step (pool numWorkers js) ls = Some s
                   /\ finished s = true).
Proof.
  intros Hpos. split.
  - intros ls s Hrun.
    pose proof (Sched.run_inv step (inv numWorkers js) (pool_step_inv numWorkers js)
                  ls _ _ (pool_inv numWorkers js) Hrun) as Hinv.
    pose proof (Sched.run_bounded step measure pool_step_decreases ls _ _ Hrun) as Hlen.
    rewrite measure_pool in Hlen.
    split; [apply (inv_places _ _ _ Hinv)|]. split; [|split].
    + apply (finished_all_collected numWorkers js s Hinv).
    + lia.
    + apply (pool_progress numWorkers js s Hpos Hinv).
  - apply (Sched.can_finish step measure finished (inv numWorkers js)
             pool_step_decreases (pool_step_inv numWorkers js)
             (fun s => pool_progress numWorkers js s Hpos)
             (pool numWorkers js) (pool_inv numWorkers js)).
Qed.

(** Two workers and the jobs 1, 2, 3. *)
Definition three_jobs : list label :=
  [LMainSend; LMainSend; LWorkerRecv 0; LWorkerRecv 1; LMainSend; LWorkerSend 1;
   LMainClose; LWorkerRecv 1; LMainCollect; LWorkerSend 0; LWorkerSend 1;
   LWorkerEnd 0; LMainCollect; LMainCollect].

(** X17 on that run: the result of job 2 comes first. *)
Lemma every_job_is_done_once_witness :
  match Sched.run step (pool 2 [1; 2; 3]%Z) three_jobs with
  | Some s => collected s = [4; 2; 6]%Z /\ collected s ≡ₚ double <$> [1; 2; 3]%Z
  | None => False
  end.
Proof.
  destruct (Sched.run step (pool 2 [1; 2; 3]%Z) three_jobs) as [s|] eqn:E;
    [|vm_compute in E; discriminate].
  assert (Hs : collected s = [4; 2; 6]%Z /\ finished s = true).
  { vm_compute in E. injection E as <-. split; reflexivity. }
  destruct Hs as [Hc Hf]. split; [exact Hc|].
  destruct (proj1 (every_job_is_done_once 2 [1; 2; 3]%Z ltac:(lia)) three_jobs s E)
    as (_ & Hall & _).
  exact (proj1 (Hall Hf)).
Defined.

End WorkerPool.

(** ** Counters shared by goroutines (README.md:2093-2116 and 2260-2290) *)
Module Counter.

Local Open Scope Z_scope.

(** *** concurrentCounter: increments under a mutex *)

(** A goroutine of concurrentCounter: in its loop with [left] iterations
    to go, or returned (its deferred [wg.Done()] done). *)
Inductive pc : Type :=
  | Looping (left : nat)
  | Gone.

Record state : Type := mkState {
  counter : Z;
  goroutines : list pc;
  wg : nat
}.

(** [goroutineCount] goroutines of [iterations] iterations each; the
    source has 10 and 1000. *)
Definition start (goroutineCount iterations : nat) : state :=
  mkState 0 (replicate goroutineCount (Looping iterations)) goroutineCount.

Definition concurrentCounter : state := start 10 1000.

Inductive label : Type :=
  | LIncrement (i : nat)
  | LReturn (i : nat).

Definition step (s : state) (l : label) : option state :=
  match l with
  | LIncrement i =>
      (* [mu.Lock(); counter++; mu.Unlock()] *)
      match goroutines s !! i with
      | Some (Looping (S k)) =>
          Some (mkState (Pipeline.wrap64 (counter s + 1))
                  (<[i := Looping k]> (goroutines s)) (wg s))
      | _ => None
      end
  | LReturn i =>
      (* the loop is over: deferred [wg.Done()] *)
      match goroutines s !! i with
      | Some (Looping O) =>
          Some (mkState (counter s) (<[i := Gone]> (goroutines s)) (pred (wg s)))
      | _ => None
      end
  end.

Definition left_of (g : pc) : nat :=
  match g with Looping k => k | Gone => 0 end.

Definition live (g : pc) : nat :=
  match g with Looping _ => 1 | Gone => 0 end.

Definition measure (s : state) : nat :=
  sum_list_with (fun g => left_of g + live g)%nat (goroutines s).

(** [wg.Wait()] has returned in main. *)
Definition waited (s : state) : bool := (wg s =? 0)%nat.

Record inv (total : Z) (s : state) : Prop := {
  inv_sum : counter s + Z.of_nat (sum_list_with left_of (goroutines s)) = total;
  inv_pos : 0 <= counter s;
  inv_wg : wg s = sum_list_with live (goroutines s)
}.

Lemma counter_sum_insert (f : pc -> nat) (l : list pc) (i : nat) (g g' : pc) :
  l !! i = Some g ->
  (sum_list_with f (<[i := g']> l) + f g = sum_list_with f l + f g')%nat.
Proof.
  intros Hi. destruct (insert_middle l i g g' Hi) as (l1 & l2 & -> & ->).
  rewrite !sum_list_with_app. cbn. lia.
Qed.

Lemma start_inv (goroutineCount iterations : nat) :
  inv (Z.of_nat goroutineCount * Z.of_nat iterations) (start goroutineCount iterations).
Proof.
  split; cbn; [|lia|].
  - induction goroutineCount as [|n IH]; [reflexivity|].
    cbn [replicate sum_list_with left_of]. lia.
  - induction goroutineCount as [|n IH]; [reflexivity|]. cbn. congruence.
Qed.

Lemma counter_step_inv (total : Z) (s : state) (l : label) (s' : state) :
  total < 2 ^ 63 -> inv total s -> step s l = Some s' -> inv total s'.
Proof.
  intros Hfit [Hsum Hpos Hwg] Hstep.
  destruct l as [i|i]; cbn in Hstep;
    destruct (goroutines s !! i) as [[[|k]|]|] eqn:Hi; try discriminate;
    injection Hstep as <-.
  - pose proof (counter_sum_insert left_of _ i _ (Looping k) Hi) as H1.
    pose proof (counter_sum_insert live _ i _ (Looping k) Hi) as H2. cbn in H1, H2.
    assert (Hw : Pipeline.wrap64 (counter s + 1) = counter s + 1).
    { unfold Pipeline.wrap64. rewrite Z.mod_small by lia. lia. }
    split; cbn; rewrite ?Hw; lia.
  - pose proof (counter_sum_insert left_of _ i _ Gone Hi) as H1.
    pose proof (counter_sum_insert live _ i _ Gone Hi) as H2. cbn in H1, H2.
    split; cbn; lia.
Qed.

Lemma counter_step_decreases (s : state) (l : label) (s' : state) :
  step s l = Some s' -> (measure s' < measure s)%nat.
Proof.
  intros Hstep. unfold measure.
  destruct l as [i|i]; cbn in Hstep;
    destruct (goroutines s !! i) as [[[|k]|]|] eqn:Hi; try discriminate;
    injection Hstep as <-; cbn.
  - pose proof (counter_sum_insert (fun g => left_of g + live g)%nat _ i _ (Looping k) Hi) as H1.
    cbn in H1. lia.
  - pose proof (counter_sum_insert (fun g => left_of g + live g)%nat _ i _ Gone Hi) as H1.
    cbn in H1. lia.
Qed.

Lemma some_live (l : list pc) :
  (0 < sum_list_with live l)%nat -> exists i k, l !! i = Some (Looping k).
Proof.
  induction l as [|g l IH]; cbn; [lia|]. intros Hpos.
  destruct g as [k|].
  - exists 0%nat, k. reflexivity.
  - destruct (IH Hpos) as (i & k & Hi). exists (S i), k. exact Hi.
Qed.

Lemma none_live (l : list pc) :
  sum_list_with live l = 0%nat -> sum_list_with left_of l = 0%nat.
Proof.
  induction l as [|g l IH]; cbn; [reflexivity|]. intros Hz.
  destruct g; cbn in *; [lia | apply IH; exact Hz].
Qed.

Lemma counter_progress (total : Z) (s : state) :
  inv total s -> waited s = false -> exists l s', step s l = Some s'.
Proof.
  intros [Hsum Hpos Hwg] Hw. unfold waited in Hw. apply Nat.eqb_neq in Hw.
  destruct (some_live (goroutines s)) as (i & k & Hi); [lia|].
  destruct k as [|k].
  - exists (LReturn i). eexists. cbn. rewrite Hi. reflexivity.
  - exists (LIncrement i). eexists. cbn. rewrite Hi. reflexivity.
Qed.

(** X18: with the mutex, whatever the order in which the goroutines take
    it: the counter plus the iterations left is always the product of the
    two numbers, so that when [wg.Wait()] returns the counter is that
    product (10000 for the source's numbers), provided it fits an [int];
    and [wg.Wait()] does return: while it has not, a step is possible,
    and no run is longer than the iterations plus the goroutines. *)
Theorem mutex_counter_is_exact (goroutineCount iterations : nat) :
  Z.of_nat goroutineCount * Z.of_nat iterations < 2 ^ 63 ->
  (forall ls s,
     Sched.run step (start goroutineCount iterations) ls = Some s ->
     counter s + Z.of_nat (sum_list_with left_of (goroutines s))
       = Z.of_nat goroutineCount * Z.of_nat iterations
     /\ (waited s = true ->
         counter s = Z.of_nat goroutineCount * Z.of_nat iterations)
     /\ (length ls <= goroutineCount * iterations + goroutineCount)%nat
     /\ (waited s = false -> exists l s', step s l = Some s'))
  /\ (exists ls s, Sched.run step (start goroutineCount iterations) ls = Some s
                   /\ waited s = true).
Proof.
  intros Hfit.
  set (total := Z.of_nat goroutineCount * Z.of_nat iterations) in *.
  split.
  - intros ls s Hrun.
    pose proof (Sched.run_inv step (inv total) (fun s l s' => counter_step_inv total s l s' Hfit)
                  ls _ _ (start_inv goroutineCount iterations) Hrun) as Hinv.
    pose proof (Sched.run_bounded step measure counter_step_decreases ls _ _ Hrun) as Hlen.
    assert (Hm : measure (start goroutineCount iterations)
                 = (goroutineCount * iterations + goroutineCount)%nat).
    { unfold measure. cbn. clear. induction goroutineCount as [|n IH]; [reflexivity|].
      cbn [replicate sum_list_with left_of live]. lia. }
    rewrite Hm in Hlen.
    split; [apply (inv_sum _ _ Hinv)|]. split; [|split].
    + intros Hw. unfold waited in Hw. apply Nat.eqb_eq in Hw.
      pose proof (inv_sum _ _ Hinv) as Hsum. rewrite (inv_wg _ _ Hinv) in Hw.
      rewrite (none_live _ Hw) in Hsum. lia.
    + lia.
    + apply (counter_progress total s Hinv).
  - apply (Sched.can_finish step measure waited (inv total)
             counter_step_decreases (fun s l s' => counter_step_inv total s l s' Hfit)
             (counter_progress total)
             (start goroutineCount iterations) (start_inv goroutineCount iterations)).
Qed.

(** X18 on two goroutines of two iterations, interleaved. *)
Lemma mutex_counter_is_exact_witness :
  match Sched.run step (start 2 2)
          [LIncrement 0; LIncrement 1; LIncrement 1; LReturn 1; LIncrement 0; LReturn 0] with
  | Some s => waited s = true /\ counter s = 4
  | None => False
  end.
Proof.
  destruct (Sched.run step (start 2 2)
              [LIncrement 0; LIncrement 1; LIncrement 1; LReturn 1; LIncrement 0; LReturn 0])
    as [s|] eqn:E; [|vm_compute in E; discriminate].
  assert (Hw : waited s = true).
  { vm_compute in E. injection E as <-. reflexivity. }
  split; [exact Hw|].
  destruct (proj1 (mutex_counter_is_exact 2 2 ltac:(cbn; lia)) _ s E) as (_ & Hc & _).
  exact (Hc Hw).
Defined.

(** *** The fifth mistake of commonMistakes: [shared++] without a mutex *)

(** A goroutine doing [shared++]: before its read of [shared], between
    the read of [v] and the write of [v + 1], or returned. The statement
    is taken as a read of the word followed by a write of it, each in
    one step, which is what it compiles to; the goroutines are taken as
    all spawned, [wg] standing at their number, as it does when main
    reaches [wg.Wait()]. *)
Inductive racy_pc : Type :=
  | Fresh
  | Loaded (v : Z)
  | Over.

Record racy_state : Type := mkRacy {
  shared : Z;
  racers : list racy_pc;
  racy_wg : nat
}.

(** One goroutine per iteration of the loop; the source has 1000. *)
Definition race_start (n : nat) : racy_state :=
  mkRacy 0 (replicate n Fresh) n.

Inductive racy_label : Type :=
  | LLoad (i : nat)
  | LStore (i : nat).

Definition racy_step (s : racy_state) (l : racy_label) : option racy_state :=
  match l with
  | LLoad i =>
      match racers s !! i with
      | Some Fresh => Some (mkRacy (shared s) (<[i := Loaded (shared s)]> (racers s)) (racy_wg s))
      | _ => None
      end
  | LStore i =>
      (* the write, then return and the deferred [wg.Done()] *)
      match racers s !! i with
      | Some (Loaded v) =>
          Some (mkRacy (Pipeline.wrap64 (v + 1)) (<[i := Over]> (racers s)) (pred (racy_wg s)))
      | _ => None
      end
  end.

Definition over (g : racy_pc) : nat :=
  match g with Over => 1 | _ => 0 end.

Definition pending (g : racy_pc) : nat :=
  match g with Over => 0 | _ => 1 end.

(** The schedule in which every goroutine reads before any writes. *)
Definition all_read_first (first n : nat) : list racy_label :=
  (LLoad <$> seq first n) ++ (LStore <$> seq first n).

Record racy_inv (n : nat) (s : racy_state) : Prop := {
  racy_bound : 0 <= shared s <= Z.of_nat (sum_list_with over (racers s));
  racy_loaded : Forall (fun g => match g with
                                 | Loaded v => 0 <= v <= Z.of_nat (sum_list_with over (racers s))
                                 | _ => True
                                 end) (racers s);
  racy_count : racy_wg s = sum_list_with pending (racers s);
  racy_len : length (racers s) = n;
  racy_some : (0 < sum_list_with over (racers s))%nat -> 1 <= shared s
}.

Lemma racy_sum_insert (f : racy_pc -> nat) (l : list racy_pc) (i : nat) (g g' : racy_pc) :
  l !! i = Some g ->
  (sum_list_with f (<[i := g']> l) + f g = sum_list_with f l + f g')%nat.
Proof.
  intros Hi. destruct (insert_middle l i g g' Hi) as (l1 & l2 & -> & ->).
  rewrite !sum_list_with_app. cbn. lia.
Qed.

Lemma over_le_length (l : list racy_pc) : (sum_list_with over l <= length l)%nat.
Proof.
  induction l as [|g l IH]; cbn; [lia|]. destruct g; cbn; lia.
Qed.

Lemma race_start_inv (n : nat) : racy_inv n (race_start n).
Proof.
  assert (Hover : sum_list_with over (replicate n Fresh) = 0%nat).
  { induction n as [|k IH]; [reflexivity | exact IH]. }
  split; cbn; rewrite ?Hover.
  - lia.
  - apply Forall_forall. intros g Hg. apply elem_of_replicate in Hg as [-> _]. exact I.
  - induction n as [|k IH]; [reflexivity|]. cbn. f_equal. apply IH.
    clear -Hover. exact Hover.
  - apply length_replicate.
  - lia.
Qed.

Lemma racy_step_inv (n : nat) (s : racy_state) (l : racy_label) (s' : racy_state) :
  Z.of_nat n < 2 ^ 63 ->
  racy_inv n s -> racy_step s l = Some s' -> racy_inv n s'.
Proof.
  intros Hfit [Hb Hl Hc Hlen Hsome] Hstep.
  pose proof (over_le_length (racers s)) as Hle.
  destruct l as [i|i]; cbn in Hstep;
    destruct (racers s !! i) as [[|v|]|] eqn:Hi; try discriminate;
    injection Hstep as <-.
  - pose proof (racy_sum_insert over _ i _ (Loaded (shared s)) Hi) as H1.
    pose proof (racy_sum_insert pending _ i _ (Loaded (shared s)) Hi) as H2.
    cbn in H1, H2.
    assert (Heq : sum_list_with over (<[i := Loaded (shared s)]> (racers s))
                  = sum_list_with over (racers s)) by lia.
    split; cbn; rewrite ?Heq, ?length_insert; auto; try lia.
    apply Forall_insert; [exact Hl | exact Hb].
  - pose proof (racy_sum_insert over _ i _ Over Hi) as H1.
    pose proof (racy_sum_insert pending _ i _ Over Hi) as H2.
    cbn in H1, H2.
    pose proof (Forall_lookup_1 _ _ _ _ Hl Hi) as Hv. cbn in Hv.
    assert (Heq : sum_list_with over (<[i := Over]> (racers s))
                  = S (sum_list_with over (racers s))) by lia.
    pose proof (over_le_length (<[i := Over]> (racers s))) as Hle'.
    rewrite length_insert in Hle'.
    assert (Hw : Pipeline.wrap64 (v + 1) = v + 1).
    { unfold Pipeline.wrap64.
      assert (0 <= v + 1 < 2 ^ 63) by lia.
      assert (2 ^ 64 = 2 * 2 ^ 63) by reflexivity.
      rewrite Z.mod_small by lia. lia. }
    split; cbn; rewrite ?Heq, ?Hw, ?length_insert; auto; try lia.
    apply Forall_insert; [|exact I].
    eapply Forall_impl; [exact Hl|]. intros g Hg. destruct g; auto. lia.
Qed.

Lemma loads_run (k : nat) : forall (pre : list racy_pc) (v : Z) (w : nat),
  Sched.run racy_step (mkRacy v (pre ++ replicate k Fresh) w)
    (LLoad <$> seq (length pre) k)
  = Some (mkRacy v (pre ++ replicate k (Loaded v)) w).
Proof.
  induction k as [|k IH]; intros pre v w; [reflexivity|].
  cbn [seq fmap list_fmap Sched.run racy_step racers shared racy_wg replicate].
  rewrite list_lookup_middle by reflexivity.
  rewrite insert_app_r_alt, Nat.sub_diag by lia. cbn [insert list_insert].
  replace (pre ++ Loaded v :: replicate k Fresh)
    with ((pre ++ [Loaded v]) ++ replicate k Fresh) by (rewrite <- app_assoc; reflexivity).
  replace (S (length pre)) with (length (pre ++ [Loaded v]))
    by (rewrite length_app; cbn; lia).
  rewrite IH. rewrite <- app_assoc. reflexivity.
Qed.

Lemma stores_run (k : nat) : forall (pre : list racy_pc) (v : Z) (w : nat),
  Sched.run racy_step (mkRacy v (pre ++ replicate k (Loaded 0)) w)
    (LStore <$> seq (length pre) k)
  = Some (mkRacy (match k with O => v | S _ => 1 end)
            (pre ++ replicate k Over) (w - k)).
Proof.
  induction k as [|k IH]; intros pre v w.
  - cbn. rewrite Nat.sub_0_r. reflexivity.
  - cbn [seq fmap list_fmap Sched.run racy_step racers shared racy_wg replicate].
    rewrite list_lookup_middle by reflexivity.
    rewrite insert_app_r_alt, Nat.sub_diag by lia. cbn [insert list_insert].
    replace (pre ++ Over :: replicate k (Loaded 0))
      with ((pre ++ [Over]) ++ replicate k (Loaded 0)) by (rewrite <- app_assoc; reflexivity).
    replace (S (length pre)) with (length (pre ++ [Over]))
      by (rewrite length_app; cbn; lia).
    rewrite IH. rewrite <- app_assoc. cbn.
    replace (pred w - k)%nat with (w - S k)%nat by lia.
    destruct k; reflexivity.
Qed.

(** X19: without the mutex an update can be lost. In every run in which
    all [n] goroutines have returned, [shared] is at least 1 and at most
    [n]; and the run in which every goroutine reads [shared] before any
    of them writes it ends with all of them returned and [shared] at 1. *)
Theorem unlocked_counter_loses_updates (n : nat) :
  (0 < n)%nat ->
  Z.of_nat n < 2 ^ 63 ->
  (forall ls s,
     Sched.run racy_step (race_start n) ls = Some s ->
     racy_wg s = 0%nat ->
     1 <= shared s <= Z.of_nat n)
  /\ Sched.run racy_step (race_start n) (all_read_first 0 n)
     = Some (mkRacy 1 (replicate n Over) 0).
Proof.
  intros Hpos Hfit. split.
  - intros ls s Hrun Hwg.
    pose proof (Sched.run_inv racy_step (racy_inv n)
                  (fun s l s' => racy_step_inv n s l s' Hfit)
                  ls _ _ (race_start_inv n) Hrun) as [Hb Hl Hc Hlen Hsome].
    pose proof (over_le_length (racers s)) as Hle.
    assert (Hall : sum_list_with over (racers s) = length (racers s)).
    { rewrite Hwg in Hc. clear -Hc. induction (racers s) as [|g l IH]; [reflexivity|].
      destruct g; cbn in *; try discriminate. f_equal. apply IH. exact Hc. }
    split; [apply Hsome; lia | lia].
  - unfold all_read_first, race_start. rewrite Sched.run_app.
    pose proof (loads_run n [] 0 n) as Hloads.
    pose proof (stores_run n [] 0 n) as Hstores.
    cbn [app length] in Hloads, Hstores.
    rewrite Hloads, Hstores.
    destruct n; [lia|]. rewrite Nat.sub_diag. reflexivity.
Qed.

(** X19 on three goroutines. *)
Lemma unlocked_counter_loses_updates_witness :
  Sched.run racy_step (race_start 3) (all_read_first 0 3)
  = Some (mkRacy 1 [Over; Over; Over] 0).
Proof.
  exact (proj2 (unlocked_counter_loses_updates 3 ltac:(lia) ltac:(cbn; lia))).
Defined.

End Counter.
